(** * Personal voice agent: session, chunking and playback logic

    A shallow embedding of the algorithmic parts of the repository:

    - [Chunker]: [createOptimalTTSChunks] and [splitLongChunk]
      (src/server/llm/index.ts, lines 58-146);
    - [Session]: the per-connection message handler of the WebSocket
      server with its asynchronous turn pipeline
      (src/server/llm/index.ts, lines 178-372);
    - [Player]: the client playback queue
      (src/ui/src/hooks/usePlayer.ts);
    - [Client]: what the client's [ws.onmessage] passes to the queue
      (src/ui/src/components/VoiceAgent.tsx, lines 107-119).

    JavaScript strings are sequences of UTF-16 code units; they are
    modelled as lists of code units so that [length], [substring],
    [lastIndexOf] and [trim] count exactly what the source counts. *)

From Stdlib Require Import String Ascii List ZArith NArith Lia Bool.
From Stdlib Require Strings.Byte.
Import ListNotations.

(* ================================================================== *)
(** ** JavaScript string primitives used by the sources               *)
(* ================================================================== *)

Module JS.

(** A UTF-16 code unit. *)
Definition char := N.

Definition jsstring := list char.

(** A string literal of the source, read as code units. *)
Definition lit (s : string) : jsstring :=
  List.map N_of_ascii (list_ascii_of_string s).

(** ECMAScript [WhiteSpace] and [LineTerminator] code points: the set
    removed by [String.prototype.trim] and matched by the regular
    expression class [\s]. *)
Definition isWhiteSpace (c : char) : bool :=
  (((9 <=? c) && (c <=? 13)) || (c =? 32) || (c =? 160) || (c =? 5760)
   || ((8192 <=? c) && (c <=? 8202)) || (c =? 8232) || (c =? 8233)
   || (c =? 8239) || (c =? 8287) || (c =? 12288) || (c =? 65279))%N.

Fixpoint dropWhile {A : Type} (f : A -> bool) (l : list A) : list A :=
  match l with
  | [] => []
  | x :: l' => if f x then dropWhile f l' else l
  end.

Fixpoint takeWhile {A : Type} (f : A -> bool) (l : list A) : list A :=
  match l with
  | [] => []
  | x :: l' => if f x then x :: takeWhile f l' else []
  end.

Definition trimStart (s : jsstring) : jsstring := dropWhile isWhiteSpace s.

Definition trimEnd (s : jsstring) : jsstring :=
  rev (dropWhile isWhiteSpace (rev s)).

(** [s.trim()] *)
Definition trim (s : jsstring) : jsstring := trimEnd (trimStart s).

(** [s.length], as the number the source compares with [maxLength]. *)
Definition len (s : jsstring) : Z := Z.of_nat (length s).

(** Clamping of an integer index into [0, length s]. *)
Definition clamp (s : jsstring) (i : Z) : nat := Nat.min (Z.to_nat i) (length s).

(** [s.substring(a, b)]: both ends are clamped and swapped when
    [a > b]. *)
Definition substring (s : jsstring) (a b : Z) : jsstring :=
  let a' := clamp s a in
  let b' := clamp s b in
  firstn (Nat.max a' b' - Nat.min a' b') (skipn (Nat.min a' b') s).

(** [s.substring(a)] *)
Definition substringFrom (s : jsstring) (a : Z) : jsstring :=
  skipn (clamp s a) s.

Fixpoint startsWith (pat s : jsstring) : bool :=
  match pat, s with
  | [], _ => true
  | _ :: _, [] => false
  | p :: pat', c :: s' => (p =? c)%N && startsWith pat' s'
  end.

Fixpoint lastIndexOfFrom (s pat : jsstring) (k : nat) : Z :=
  if startsWith pat (skipn k s) then Z.of_nat k
  else match k with
       | O => (-1)%Z
       | S k' => lastIndexOfFrom s pat k'
       end.

(** [s.lastIndexOf(pat, position)]: the largest index [k <= position]
    at which [pat] occurs in [s], or [-1]. *)
Definition lastIndexOf (s pat : jsstring) (position : Z) : Z :=
  lastIndexOfFrom s pat (clamp s position).

(** Truthiness of a string: the empty string is falsy. *)
Definition truthy (s : jsstring) : bool :=
  match s with [] => false | _ :: _ => true end.

End JS.

(* ================================================================== *)
(** ** The TTS chunker ([createOptimalTTSChunks], [splitLongChunk])    *)
(* ================================================================== *)

Module Chunker.
Import JS.

Local Open Scope Z_scope.

(** The class [[.!?;]] of the sentence regular expression. *)
Definition isTerminator (c : char) : bool :=
  ((c =? 46) || (c =? 33) || (c =? 63) || (c =? 59))%N.

(** The class [[A-Z]]. *)
Definition isUpper (c : char) : bool := ((65 <=? c) && (c <=? 90))%N.

(** The regular expression [/(?<=[.!?;])\s+(?=[A-Z])/] tried at one
    position: [prev] is the code unit before the position and [s] the
    text from the position on.  The greedy [\s+] takes the whole run of
    white space; a shorter run cannot be followed by a capital letter.
    The result is the length of the match. *)
Definition matchBoundary (prev : option char) (s : jsstring) : option nat :=
  match prev with
  | Some p =>
      if isTerminator p then
        let k := length (takeWhile isWhiteSpace s) in
        match k, nth_error s k with
        | S _, Some u => if isUpper u then Some k else None
        | _, _ => None
        end
      else None
  | None => None
  end.

(** [text.split(re)]: the scan of [String.prototype.split].  [skip]
    counts the code units of a match still to be jumped over, [prev] is
    the code unit before the current position and [piece] the substring
    collected since the end of the last match. *)
Fixpoint splitLoop (skip : nat) (prev : option char) (piece s : jsstring)
  : list jsstring :=
  match s with
  | [] => [piece]
  | c :: s' =>
      match skip with
      | S k => splitLoop k (Some c) piece s'
      | O =>
          match matchBoundary prev s with
          | Some (S k) => piece :: splitLoop k (Some c) [] s'
          | _ => splitLoop O (Some c) (piece ++ [c]) s'
          end
      end
  end.

Definition splitSentences (text : jsstring) : list jsstring :=
  splitLoop O None [] text.

Definition space : char := 32%N.

(** [currentChunk ? `${currentChunk} ${sentence}` : sentence] *)
Definition potentialChunk (currentChunk sentence : jsstring) : jsstring :=
  if truthy currentChunk then currentChunk ++ [space] ++ sentence
  else sentence.

(** The [for] loop over the sentences: [currentChunk] and [chunks] are
    the loop's two variables; the last iteration pushes the chunk in
    progress. *)
Fixpoint groupSentences (maxChunkLength : Z) (sentences : list jsstring)
  (currentChunk : jsstring) (chunks : list jsstring) : list jsstring :=
  match sentences with
  | [] => chunks
  | sentence :: rest =>
      let '(chunks', currentChunk') :=
        if (len (potentialChunk currentChunk sentence) >? maxChunkLength)
           && (len currentChunk >? 0)
        then (chunks ++ [trim currentChunk], sentence)
        else (chunks, potentialChunk currentChunk sentence) in
      match rest with
      | [] => chunks' ++ [trim currentChunk']
      | _ :: _ => groupSentences maxChunkLength rest currentChunk' chunks'
      end
  end.

(** The candidate break points of [splitLongChunk], in the order of the
    array literal. *)
Definition breakPoints (remaining : jsstring) (maxLength : Z) : list Z :=
  [ lastIndexOf remaining (lit ", ") maxLength;
    lastIndexOf remaining (lit " and ") maxLength;
    lastIndexOf remaining (lit " or ") maxLength;
    lastIndexOf remaining (lit " but ") maxLength;
    lastIndexOf remaining (lit " - ") maxLength;
    lastIndexOf remaining (lit " ") maxLength ].

(** [breakPoints.find((bp) => bp > maxLength * 0.5)]; on integers
    [bp > maxLength * 0.5] is [2 * bp > maxLength]. *)
Definition findBreakPoint (remaining : jsstring) (maxLength : Z) : option Z :=
  find (fun bp => 2 * bp >? maxLength) (breakPoints remaining maxLength).

(** The statements after the [while] loop of [splitLongChunk]. *)
Definition pushRemaining (remaining : jsstring) (chunks : list jsstring)
  : list jsstring :=
  if len remaining >? 0 then chunks ++ [remaining] else chunks.

(** One iteration of the [while] body: the chunk pushed and the new
    [remaining]. *)
Definition splitStep (remaining : jsstring) (maxLength : Z)
  : jsstring * jsstring :=
  match findBreakPoint remaining maxLength with
  | Some breakPoint =>
      if negb (breakPoint =? 0) && (breakPoint >? 0) then
        (trim (substring remaining 0 (breakPoint + 1)),
         trim (substringFrom remaining (breakPoint + 1)))
      else
        (trim (substring remaining 0 maxLength),
         trim (substringFrom remaining maxLength))
  | None =>
      (trim (substring remaining 0 maxLength),
       trim (substringFrom remaining maxLength))
  end.

(** The [while (remaining.length > maxLength)] loop.  [None] stands for
    a loop that has not finished within [fuel] iterations. *)
Fixpoint splitLongLoop (fuel : nat) (maxLength : Z) (remaining : jsstring)
  (chunks : list jsstring) : option (list jsstring) :=
  if len remaining >? maxLength then
    match fuel with
    | O => None
    | S fuel' =>
        let '(chunk, remaining') := splitStep remaining maxLength in
        splitLongLoop fuel' maxLength remaining' (chunks ++ [chunk])
    end
  else Some (pushRemaining remaining chunks).

Definition splitLongChunk (text : jsstring) (maxLength : Z)
  : option (list jsstring) :=
  splitLongLoop (length text) maxLength text [].

(** [chunks.flatMap(f)] for an [f] that may not return. *)
Fixpoint flatMapLoop (f : jsstring -> option (list jsstring))
  (chunks : list jsstring) : option (list jsstring) :=
  match chunks with
  | [] => Some []
  | chunk :: rest =>
      match f chunk, flatMapLoop f rest with
      | Some l, Some r => Some (l ++ r)
      | _, _ => None
      end
  end.

Definition createOptimalTTSChunks (text : jsstring) (maxChunkLength : Z)
  : option (list jsstring) :=
  if negb (truthy text) || (len (trim text) =? 0) then Some []
  else
    let sentences :=
      filter (fun s => len s >? 0) (List.map trim (splitSentences text)) in
    match sentences with
    | [] => Some [trim text]
    | _ :: _ =>
        let chunks := groupSentences maxChunkLength sentences [] [] in
        flatMapLoop
          (fun chunk =>
             if len chunk >? maxChunkLength
             then splitLongChunk chunk maxChunkLength
             else Some [chunk])
          (filter (fun chunk => len chunk >? 0) chunks)
    end.

(** The default value of the parameter [maxChunkLength]. *)
Definition defaultMaxChunkLength : Z := 50.

(** Two replies used as examples below. *)
Definition weatherReply : jsstring :=
  lit "Sure, I can help you with that right away. It looks like rain in the afternoon today. Take an umbrella.".

Definition restaurantReply : jsstring :=
  lit "I would recommend the small Italian place downtown, it is quiet and cheap.".

(** The text with all white space taken out: two texts are equal up to
    white-space normalisation when their non-white-space code units
    agree, in order. *)
Definition stripWhiteSpace (s : jsstring) : jsstring :=
  filter (fun c => negb (isWhiteSpace c)) s.

Definition nonEmpty (s : jsstring) : Prop := s <> [].

(** A string that does not begin with white space. *)
Definition headed (s : jsstring) : Prop :=
  match s with
  | [] => True
  | c :: _ => isWhiteSpace c = false
  end.

(** [s] with every run of white space replaced by one space, as
    [s.replace(/\s+/g, ' ')] does; [gap] tells whether white space is
    pending before the next code unit. *)
Fixpoint squeeze (gap : bool) (s : jsstring) : jsstring :=
  match s with
  | [] => []
  | c :: s' =>
      if isWhiteSpace c then squeeze true s'
      else (if gap then [space; c] else [c]) ++ squeeze false s'
  end.

(** The text with white space collapsed: every run of white space is
    one space, and there is none at either end. *)
Definition collapse (s : jsstring) : jsstring := squeeze false (trimStart s).

(** Whether white space is pending after [s]. *)
Fixpoint gapAfter (gap : bool) (s : jsstring) : bool :=
  match s with
  | [] => gap
  | c :: s' => gapAfter (isWhiteSpace c) s'
  end.

(** Segments put together again, each one preceded by a single space
    or by nothing; what precedes the first one is dropped when the
    result is collapsed. *)
Definition rejoin (pieces : list (bool * jsstring)%type) : jsstring :=
  flat_map
    (fun piece : (bool * jsstring)%type =>
       (if fst piece then [space] else []) ++ snd piece)
    pieces.

(** The collapsed form of each piece, with a space before it where its
    flag is set. *)
Definition assemble (pieces : list (bool * jsstring)%type) : jsstring :=
  flat_map
    (fun piece : (bool * jsstring)%type => squeeze (fst piece) (snd piece))
    pieces.

(** A string that has no white space at either end and is not empty. *)
Definition tight (s : jsstring) : Prop :=
  headed s /\ headed (rev s) /\ s <> [].

(** A reply with two sentences and an address that does not fit into
    one segment. *)
Definition addressReply : jsstring :=
  lit "Open https://example.com/docs/getting-started/installation/index.html for more details. Thanks for asking.".

(** A text without any white space. *)
Definition solid (s : jsstring) : Prop :=
  Forall (fun c => isWhiteSpace c = false) s.

(** A text cut every [n] code units; [fuel] bounds the number of
    pieces. *)
Fixpoint cutEvery (fuel n : nat) (s : jsstring) : list jsstring :=
  match fuel with
  | O => []
  | S fuel' =>
      match s with
      | [] => []
      | _ :: _ => firstn n s :: cutEvery fuel' n (skipn n s)
      end
  end.

Definition hardCuts (n : nat) (s : jsstring) : list jsstring :=
  cutEvery (length s) n s.

(** The room a list of sentences takes when joined by single spaces,
    plus one. *)
Fixpoint span (sentences : list jsstring) : Z :=
  match sentences with
  | [] => 0
  | sentence :: rest => len sentence + 1 + span rest
  end.

End Chunker.

(* ================================================================== *)
(** ** Base64, as [Buffer] encodes and decodes it                      *)
(* ================================================================== *)

Module Base64.

Definition byte := Byte.byte.

Definition alphabet : list ascii :=
  list_ascii_of_string
    "ABCDEFGHIJKLMNOPQRSTUVWXYZabcdefghijklmnopqrstuvwxyz0123456789+/".

Definition sextetChar (n : N) : ascii := nth (N.to_nat n) alphabet "="%char.

Definition byteOfN (n : N) : byte :=
  match Byte.of_N n with Some b => b | None => Byte.x00 end.

Local Open Scope N_scope.

(** [buffer.toString('base64')]: RFC 4648 with padding. *)
Fixpoint encodeN (l : list N) : list ascii :=
  match l with
  | [] => []
  | [a] =>
      [sextetChar (a / 4); sextetChar (a mod 4 * 16); "="%char; "="%char]
  | [a; b] =>
      [sextetChar (a / 4); sextetChar (a mod 4 * 16 + b / 16);
       sextetChar (b mod 16 * 4); "="%char]
  | a :: b :: c :: rest =>
      [sextetChar (a / 4); sextetChar (a mod 4 * 16 + b / 16);
       sextetChar (b mod 16 * 4 + c / 64); sextetChar (c mod 64)]
      ++ encodeN rest
  end.

Definition encode (bytes : list byte) : string :=
  string_of_list_ascii (encodeN (List.map Byte.to_N bytes)).

(** The value of one base64 character; both the standard and the
    URL-safe alphabet are read, as [Buffer.from] does. *)
Definition sextetOf (c : ascii) : option N :=
  let n := N_of_ascii c in
  if (65 <=? n) && (n <=? 90) then Some (n - 65)
  else if (97 <=? n) && (n <=? 122) then Some (n - 71)
  else if (48 <=? n) && (n <=? 57) then Some (n + 4)
  else if (n =? 43) || (n =? 45) then Some 62
  else if (n =? 47) || (n =? 95) then Some 63
  else None.

(** The sextets of the input up to the first padding character;
    characters outside the alphabet are skipped. *)
Fixpoint sextets (l : list ascii) : list N :=
  match l with
  | [] => []
  | c :: rest =>
      if (N_of_ascii c =? 61) then []
      else match sextetOf c with
           | Some n => n :: sextets rest
           | None => sextets rest
           end
  end.

Fixpoint decodeN (l : list N) : list N :=
  match l with
  | a :: b :: c :: d :: rest =>
      [a * 4 + b / 16; b mod 16 * 16 + c / 4; c mod 4 * 64 + d]
      ++ decodeN rest
  | [a; b; c] => [a * 4 + b / 16; b mod 16 * 16 + c / 4]
  | [a; b] => [a * 4 + b / 16]
  | _ => []
  end.

(** [Buffer.from(chunk, 'base64')] *)
Definition decode (chunk : string) : list byte :=
  List.map byteOfN (decodeN (sextets (list_ascii_of_string chunk))).

End Base64.

(* ================================================================== *)
(** ** The per-connection session and turn pipeline                    *)
(* ================================================================== *)

Module Session.
Import JS.

Definition byte := Byte.byte.

Inductive MessageType :=
| user_audio_start
| user_audio_chunk
| user_audio_end.

(** [interface WebSocketMessage] *)
Record WebSocketMessage := {
  type : MessageType;
  chunk : option string
}.

(** The three variables of the connection handler. *)
Record Connection := {
  audioChunks : list string;
  inProgress : bool;
  currentSessionId : option string
}.

(** Truthiness of an optional string: [null], [undefined] and the empty
    string are falsy. *)
Definition truthyString (s : option string) : bool :=
  match s with
  | Some (String _ _) => true
  | _ => false
  end.

(** What the server sends to the client. *)
Inductive ServerMessage :=
| ai_audio (chunk : string) (done : bool)
| error (message : string).

(** The calls the handler makes to the outside. *)
Inductive Effect :=
| ws_send (m : ServerMessage)
| writeFile (fileId : string) (completeBuffer : list byte)
| transcribe (fileId : string)
| chat_create (transcript : jsstring)
| speech_create (input : jsstring)
| arrayBuffer.

(** A turn suspended at one of the [await]s of the [user_audio_end]
    branch. *)
Inductive Turn :=
| AwaitWriteFile (fileId : string)
| AwaitTranscribe
| AwaitChatCreate
| AwaitChatStream (finalResponse : jsstring)
| AwaitSpeech (chunks : list jsstring) (i : nat)
| AwaitArrayBuffer (chunks : list jsstring) (i : nat).

(** How an awaited promise settles. *)
Inductive Settled :=
| Resolved
| ResolvedText (text : jsstring)
| ResolvedDelta (content : option jsstring)
| ResolvedEnd
| ResolvedAudio (bytes : list byte)
| Rejected (message : string).

(** The state the [finally] block and the [close] handler leave. *)
Definition idle : Connection :=
  {| audioChunks := []; inProgress := false; currentSessionId := None |}.

(** The session states of the specification, read off the variables. *)
Definition isIdle (c : Connection) : bool :=
  negb (truthyString (currentSessionId c)).

Definition isCapturing (c : Connection) : bool :=
  truthyString (currentSessionId c) && negb (inProgress c).

Definition isProcessing (c : Connection) : bool := inProgress c.

(** [chunk.choices[0]?.delta?.content || ''] *)
Definition deltaText (content : option jsstring) : jsstring :=
  match content with
  | Some d => d
  | None => []
  end.

Section Handler.

(** [Buffer.from(chunk, 'base64')] and [audioBuffer.toString('base64')]
    belong to the runtime; the handler is modelled over any such pair. *)
Variable fromBase64 : string -> list byte.
Variable toBase64 : list byte -> string.

(** [Buffer.concat(audioChunks.map((chunk) => Buffer.from(chunk, 'base64')))] *)
Definition completeBuffer (c : Connection) : list byte :=
  concat (List.map fromBase64 (audioChunks c)).

(** The synchronous part of the message handler: the new variables, the
    calls made, and the turn left suspended at its first [await], if
    any.  [uuid] is the value [uuid()] returns if it is called. *)
Definition onMessage (uuid : string) (data : WebSocketMessage)
  (c : Connection) : Connection * list Effect * option Turn :=
  match type data with
  | user_audio_start =>
      if inProgress c then (c, [], None)
      else
        ({| audioChunks := []; inProgress := false;
            currentSessionId := Some uuid |}, [], None)
  | user_audio_chunk =>
      if negb (truthyString (currentSessionId c)) then (c, [], None)
      else
        match chunk data with
        | Some (String _ _ as b64) =>
            ({| audioChunks := audioChunks c ++ [b64];
                inProgress := inProgress c;
                currentSessionId := currentSessionId c |}, [], None)
        | _ => (c, [], None)
        end
  | user_audio_end =>
      match currentSessionId c with
      | Some (String _ _ as fileId) =>
          if inProgress c then (c, [], None)
          else if (length (audioChunks c) =? 0)%nat then
            ({| audioChunks := audioChunks c; inProgress := false;
                currentSessionId := None |}, [], None)
          else if (length (completeBuffer c) <? 1000)%nat then
            (* [return] inside [try]: the [finally] block runs *)
            (idle, [], None)
          else
            ({| audioChunks := audioChunks c; inProgress := true;
                currentSessionId := currentSessionId c |},
             [writeFile fileId (completeBuffer c)],
             Some (AwaitWriteFile fileId))
      | _ => (c, [], None)
      end
  end.

(** The head of the synthesis [for] loop at index [i]: either the next
    synthesis request is issued or the loop, and with it the [try]
    block, is left and [finally] runs. *)
Definition speechLoop (chunks : list jsstring) (i : nat) (c : Connection)
  : Connection * list Effect * option Turn :=
  match nth_error chunks i with
  | Some chunk => (c, [speech_create chunk], Some (AwaitSpeech chunks i))
  | None => (idle, [], None)
  end.

(** [const isLast = i === chunks.length - 1] *)
Definition isLast (chunks : list jsstring) (i : nat) : bool :=
  (Z.of_nat i =? Z.of_nat (length chunks) - 1)%Z.

(** The continuation of a suspended turn when the awaited promise
    settles.  A rejection is caught by [catch], which sends the error
    message, and [finally] resets the variables.  [None]: the promise
    cannot settle this way at this [await], or the chunker does not
    return. *)
Definition resume (t : Turn) (r : Settled) (c : Connection)
  : option (Connection * list Effect * option Turn) :=
  match r, t with
  | Rejected message, _ => Some (idle, [ws_send (error message)], None)
  | Resolved, AwaitWriteFile fileId =>
      Some (c, [transcribe fileId], Some AwaitTranscribe)
  | ResolvedText transcript, AwaitTranscribe =>
      Some (c, [chat_create transcript], Some AwaitChatCreate)
  | Resolved, AwaitChatCreate => Some (c, [], Some (AwaitChatStream []))
  | ResolvedDelta content, AwaitChatStream finalResponse =>
      Some (c, [], Some (AwaitChatStream (finalResponse ++ deltaText content)))
  | ResolvedEnd, AwaitChatStream finalResponse =>
      match Chunker.createOptimalTTSChunks finalResponse
              Chunker.defaultMaxChunkLength with
      | Some chunks => Some (speechLoop chunks 0 c)
      | None => None
      end
  | Resolved, AwaitSpeech chunks i =>
      Some (c, [arrayBuffer], Some (AwaitArrayBuffer chunks i))
  | ResolvedAudio bytes, AwaitArrayBuffer chunks i =>
      let '(c', effects, t') := speechLoop chunks (S i) c in
      Some (c', ws_send (ai_audio (toBase64 bytes) (isLast chunks i)) :: effects,
            t')
  | _, _ => None
  end.

(** One connection: its variables, the turn in flight and whether the
    socket has closed. *)
Record Server := {
  conn : Connection;
  turn : option Turn;
  closed : bool
}.

Inductive Event :=
| Message (uuid : string) (data : WebSocketMessage)
| Close
| Settle (r : Settled).

Definition connected : Server :=
  {| conn := idle; turn := None; closed := false |}.

(** One event of the connection's event loop.  No message is delivered
    on a closed socket; a second turn cannot start while one is in
    flight on an open socket, since [inProgress] is then set. *)
Definition step (s : Server) (e : Event) : option (Server * list Effect) :=
  match e with
  | Message uuid data =>
      if closed s then None
      else
        let '(c, effects, t) := onMessage uuid data (conn s) in
        match t, turn s with
        | Some _, Some _ => None
        | Some t', None =>
            Some ({| conn := c; turn := Some t'; closed := false |}, effects)
        | None, old =>
            Some ({| conn := c; turn := old; closed := false |}, effects)
        end
  | Close =>
      if closed s then None
      else Some ({| conn := idle; turn := turn s; closed := true |}, [])
  | Settle r =>
      match turn s with
      | Some t =>
          match resume t r (conn s) with
          | Some (c, effects, t') =>
              Some ({| conn := c; turn := t'; closed := closed s |}, effects)
          | None => None
          end
      | None => None
      end
  end.

(** A run of events, with the calls made in order. *)
Fixpoint run (events : list Event) (s : Server)
  : option (Server * list Effect) :=
  match events with
  | [] => Some (s, [])
  | e :: rest =>
      match step s e with
      | Some (s', effects) =>
          match run rest s' with
          | Some (s'', effects') => Some (s'', effects ++ effects')
          | None => None
          end
      | None => None
      end
  end.

End Handler.

(** On an open socket a turn in flight keeps [inProgress] set. *)
Definition guarded (s : Server) : Prop :=
  closed s = false -> turn s <> None -> inProgress (conn s) = true.

(** The messages sent to the client among the calls of a run. *)
Fixpoint sent (effects : list Effect) : list ServerMessage :=
  match effects with
  | [] => []
  | ws_send m :: rest => m :: sent rest
  | _ :: rest => sent rest
  end.

(** The calls and messages of the synthesis loop for the segments of one
    turn, [audios] being what the synthesis service returns for them:
    request, body, message, and only then the next request. *)
Fixpoint synthesisTrace (toBase64 : list byte -> string)
  (segments : list jsstring) (audios : list (list byte)) : list Effect :=
  match segments, audios with
  | segment :: segments', audio :: audios' =>
      speech_create segment :: arrayBuffer
      :: ws_send (ai_audio (toBase64 audio)
                    (match segments' with [] => true | _ :: _ => false end))
      :: synthesisTrace toBase64 segments' audios'
  | _, _ => []
  end.

(** The settlements of a synthesis loop in which every call succeeds. *)
Definition synthesized (audios : list (list byte)) : list Event :=
  flat_map (fun audio => [Settle Resolved; Settle (ResolvedAudio audio)])
    audios.

(** A message format carries the position of its segment when the
    position can be read off every message sent. *)
Definition carriesPosition (position : ServerMessage -> nat)
  (messages : list ServerMessage) : Prop :=
  forall i m, nth_error messages i = Some m -> position m = i.

Definition start : WebSocketMessage :=
  {| type := user_audio_start; chunk := None |}.

(** Sample states and data used as examples below. *)
Definition capturingSample : Connection :=
  {| audioChunks := ["aGVsbG8="%string]; inProgress := false;
     currentSessionId := Some "3f2a"%string |}.

Definition processingSample : Connection :=
  {| audioChunks := ["aGVsbG8="%string]; inProgress := true;
     currentSessionId := Some "3f2a"%string |}.

Definition transcribingSample : Server :=
  {| conn := processingSample; turn := Some AwaitTranscribe;
     closed := false |}.

Definition streamingSample (finalResponse : jsstring) : Server :=
  {| conn := processingSample; turn := Some (AwaitChatStream finalResponse);
     closed := false |}.

Definition beep : list byte := [Byte.x52; Byte.x49; Byte.x46; Byte.x46].

Definition weatherSegments : list jsstring :=
  [lit "Sure, I can help you with that right away.";
   lit "It looks like rain in the afternoon today.";
   lit "Take an umbrella."].

Definition chunkOf (b64 : string) : WebSocketMessage :=
  {| type := user_audio_chunk; chunk := Some b64 |}.

Definition finish : WebSocketMessage :=
  {| type := user_audio_end; chunk := None |}.

(** A chunk of 1336 base64 characters, which decodes to 1002 bytes. *)
Definition largeChunk : string :=
  string_of_list_ascii (repeat "A"%char 1336).

(** A chunk message with any [chunk] field, present or not. *)
Definition chunkMessage (field : option string) : WebSocketMessage :=
  {| type := user_audio_chunk; chunk := field |}.

(** The chunk fields the handler keeps: those that are truthy. *)
Definition keptChunks (fields : list (option string)) : list string :=
  flat_map
    (fun field =>
       match field with
       | Some (String _ _ as b64) => [b64]
       | _ => []
       end) fields.

(** The settlements of a reply stream that yields [deltas], and the
    reply accumulated from them. *)
Definition streamed (deltas : list (option jsstring)) : list Event :=
  List.map (fun content => Settle (ResolvedDelta content)) deltas.

Definition replyOf (deltas : list (option jsstring)) : jsstring :=
  concat (List.map deltaText deltas).

Definition isSettle (e : Event) : bool :=
  match e with Settle _ => true | _ => false end.

End Session.

(* ================================================================== *)
(** ** The playback queue ([usePlayer])                                 *)
(* ================================================================== *)

Module Player.

(** An [AudioBufferSourceNode] that has been started and whose [ended]
    event has not been delivered yet.  [halted] records that [stop()]
    was called on it: it is silent, and the browser still delivers its
    [ended] event to [onended]. *)
Record Source := {
  sourceId : nat;
  segment : string;
  halted : bool
}.

(** The refs of the hook and, below them, what the browser holds for
    it: the segments whose [processNextAudio] call is suspended at its
    [await]s (context resume and [decodeAudioData]), the started
    sources, and the number of sources created so far. *)
Record State := {
  audioQueue : list string;
  isPlaying : bool;
  currentSource : option nat;
  decoding : list string;
  sources : list Source;
  created : nat
}.

(** What the hook does that can be observed: its two callbacks and the
    life of each segment. *)
Inductive Signal :=
| PlaybackStart
| PlaybackEnd
| Dequeued (segment : string)
| Started (id : nat) (segment : string)
| Halted (id : nat)
| Ended (id : nat) (segment : string)
| Skipped (segment : string).

Inductive Event :=
| QueueAudio (base64 : string)
| StopPlayback
| DecodeDone (k : nat) (ok : bool)
| SourceEnded (id : nat).

Definition initial : State :=
  {| audioQueue := []; isPlaying := false; currentSource := None;
     decoding := []; sources := []; created := 0 |}.

(** [processNextAudio] up to its first [await]. *)
Definition processNextAudio (p : State) : State * list Signal :=
  match audioQueue p with
  | [] =>
      ({| audioQueue := []; isPlaying := false;
          currentSource := currentSource p; decoding := decoding p;
          sources := sources p; created := created p |},
       [PlaybackEnd])
  | nextChunk :: rest =>
      ({| audioQueue := rest; isPlaying := isPlaying p;
          currentSource := currentSource p;
          decoding := decoding p ++ [nextChunk];
          sources := sources p; created := created p |},
       [Dequeued nextChunk])
  end.

Fixpoint removeNth {A : Type} (k : nat) (l : list A) : list A :=
  match k, l with
  | _, [] => []
  | O, _ :: rest => rest
  | S k', x :: rest => x :: removeNth k' rest
  end.

(** The rest of [processNextAudio] once the [await]s of the [k]-th
    suspended call settle: with [ok] the source is created, stored and
    started; otherwise (no context, [atob] or [decodeAudioData]
    failing) the next segment is tried. *)
Definition decodeDone (k : nat) (ok : bool) (p : State)
  : option (State * list Signal) :=
  match nth_error (decoding p) k with
  | None => None
  | Some nextChunk =>
      let p' :=
        {| audioQueue := audioQueue p; isPlaying := isPlaying p;
           currentSource := currentSource p;
           decoding := removeNth k (decoding p);
           sources := sources p; created := created p |} in
      if ok then
        Some ({| audioQueue := audioQueue p'; isPlaying := isPlaying p';
                 currentSource := Some (created p');
                 decoding := decoding p';
                 sources := sources p'
                   ++ [{| sourceId := created p'; segment := nextChunk;
                          halted := false |}];
                 created := S (created p') |},
              [Started (created p') nextChunk])
      else
        let '(p'', signals) := processNextAudio p' in
        Some (p'', Skipped nextChunk :: signals)
  end.

Fixpoint findSource (id : nat) (l : list Source) : option Source :=
  match l with
  | [] => None
  | s :: rest => if (sourceId s =? id)%nat then Some s else findSource id rest
  end.

Definition dropSource (id : nat) (l : list Source) : list Source :=
  filter (fun s => negb (sourceId s =? id)%nat) l.

(** [source.onended]: the [ended] event of a started source. *)
Definition sourceEnded (id : nat) (p : State) : option (State * list Signal) :=
  match findSource id (sources p) with
  | None => None
  | Some s =>
      let '(p', signals) :=
        processNextAudio
          {| audioQueue := audioQueue p; isPlaying := isPlaying p;
             currentSource := None; decoding := decoding p;
             sources := dropSource id (sources p); created := created p |} in
      Some (p', Ended id (segment s) :: signals)
  end.

(** [queueAudio(base64)] *)
Definition queueAudio (base64 : string) (p : State) : State * list Signal :=
  let p' :=
    {| audioQueue := audioQueue p ++ [base64]; isPlaying := isPlaying p;
       currentSource := currentSource p; decoding := decoding p;
       sources := sources p; created := created p |} in
  if negb (isPlaying p') then
    let '(p'', signals) :=
      processNextAudio
        {| audioQueue := audioQueue p'; isPlaying := true;
           currentSource := currentSource p'; decoding := decoding p';
           sources := sources p'; created := created p' |} in
    (p'', PlaybackStart :: signals)
  else (p', []).

Definition halt (id : nat) (l : list Source) : list Source :=
  List.map
    (fun s =>
       if (sourceId s =? id)%nat
       then {| sourceId := sourceId s; segment := segment s; halted := true |}
       else s) l.

(** [stopPlayback()] *)
Definition stopPlayback (p : State) : State * list Signal :=
  let '(sources', signals) :=
    match currentSource p with
    | Some id => (halt id (sources p), [Halted id])
    | None => (sources p, [])
    end in
  if isPlaying p then
    ({| audioQueue := []; isPlaying := false; currentSource := None;
        decoding := decoding p; sources := sources'; created := created p |},
     signals ++ [PlaybackEnd])
  else
    ({| audioQueue := []; isPlaying := isPlaying p; currentSource := None;
        decoding := decoding p; sources := sources'; created := created p |},
     signals).

Definition step (p : State) (e : Event) : option (State * list Signal) :=
  match e with
  | QueueAudio base64 => Some (queueAudio base64 p)
  | StopPlayback => Some (stopPlayback p)
  | DecodeDone k ok => decodeDone k ok p
  | SourceEnded id => sourceEnded id p
  end.

(** A run of events from a state, with the signals in order. *)
Fixpoint run (events : list Event) (p : State)
  : option (State * list Signal) :=
  match events with
  | [] => Some (p, [])
  | e :: rest =>
      match step p e with
      | Some (p', signals) =>
          match run rest p' with
          | Some (p'', signals') => Some (p'', signals ++ signals')
          | None => None
          end
      | None => None
      end
  end.

(** The number of playback-end signals among the signals of a run. *)
Fixpoint playbackEnds (signals : list Signal) : nat :=
  match signals with
  | [] => 0
  | PlaybackEnd :: rest => S (playbackEnds rest)
  | _ :: rest => playbackEnds rest
  end.

(** The sources that sound. *)
Definition sounding (p : State) : list Source :=
  filter (fun s => negb (halted s)) (sources p).

(** The segments enqueued by a run, in order. *)
Fixpoint enqueued (events : list Event) : list string :=
  match events with
  | [] => []
  | QueueAudio base64 :: rest => base64 :: enqueued rest
  | _ :: rest => enqueued rest
  end.

(** The segments taken off the queue, in order. *)
Fixpoint dequeued (signals : list Signal) : list string :=
  match signals with
  | [] => []
  | Dequeued segment :: rest => segment :: dequeued rest
  | _ :: rest => dequeued rest
  end.

Definition isStop (e : Event) : bool :=
  match e with StopPlayback => true | _ => false end.

(** Where the queue stands between two signals: nothing in flight, one
    segment being decoded, or one segment sounding. *)
Inductive Phase :=
| Quiet
| Loading (segment : string)
| Sounding (id : nat) (segment : string).

(** One signal of a strictly sequential playback: a segment is taken
    off the queue only when nothing is in flight, it is then started or
    skipped, and a started segment ends before anything else happens
    to the queue. *)
Definition advance (ph : Phase) (s : Signal) : option Phase :=
  match s, ph with
  | PlaybackStart, Quiet => Some Quiet
  | PlaybackEnd, Quiet => Some Quiet
  | Dequeued x, Quiet => Some (Loading x)
  | Started id x, Loading y =>
      if String.eqb x y then Some (Sounding id x) else None
  | Skipped x, Loading y => if String.eqb x y then Some Quiet else None
  | Ended id x, Sounding id' y =>
      if (id =? id')%nat && String.eqb x y then Some Quiet else None
  | _, _ => None
  end.

Fixpoint sequential (ph : Phase) (signals : list Signal) : option Phase :=
  match signals with
  | [] => Some ph
  | s :: rest =>
      match advance ph s with
      | Some ph' => sequential ph' rest
      | None => None
      end
  end.

(** The state of the hook in each phase of a sequential playback. *)
Definition inPhase (p : State) (ph : Phase) : Prop :=
  match ph with
  | Quiet =>
      isPlaying p = false /\ audioQueue p = [] /\ decoding p = []
      /\ sources p = []
  | Loading x =>
      isPlaying p = true /\ decoding p = [x] /\ sources p = []
  | Sounding id x =>
      isPlaying p = true /\ decoding p = []
      /\ sources p = [{| sourceId := id; segment := x; halted := false |}]
  end.

(** Sample runs used as examples below: three segments that arrive
    while the first is decoded and played, and a queue playing its
    first segment with a second one waiting. *)
Definition threeSegments : list Event :=
  [QueueAudio "A"; QueueAudio "B"; DecodeDone 0 true; QueueAudio "C";
   SourceEnded 0; DecodeDone 0 true; SourceEnded 1; DecodeDone 0 true;
   SourceEnded 2]%string.

Definition playingSample : State :=
  {| audioQueue := ["B"%string]; isPlaying := true; currentSource := Some 0;
     decoding := [];
     sources := [{| sourceId := 0; segment := "A"%string; halted := false |}];
     created := 1 |}.

(** The two callbacks of a well-behaved playback take turns:
    [onPlaybackStart] fires only while idle, [onPlaybackEnd] only while
    playing.  The result is whether the playback is on afterwards. *)
Definition alternate (playing : bool) (s : Signal) : option bool :=
  match s, playing with
  | PlaybackStart, false => Some true
  | PlaybackStart, true => None
  | PlaybackEnd, true => Some false
  | PlaybackEnd, false => None
  | _, _ => Some playing
  end.

Fixpoint alternating (playing : bool) (signals : list Signal) : option bool :=
  match signals with
  | [] => Some playing
  | s :: rest =>
      match alternate playing s with
      | Some playing' => alternating playing' rest
      | None => None
      end
  end.

(** The number of playback-start signals among the signals of a run. *)
Fixpoint playbackStarts (signals : list Signal) : nat :=
  match signals with
  | [] => 0
  | PlaybackStart :: rest => S (playbackStarts rest)
  | _ :: rest => playbackStarts rest
  end.

(** What the browser does for a queue that is left alone: for each
    segment in turn the decode settles, with success or not, and a
    started source plays to its end.  [next] is the id of the next
    source to be created. *)
Fixpoint completions (next : nat) (oks : list bool) : list Event :=
  match oks with
  | [] => []
  | true :: rest =>
      DecodeDone 0 true :: SourceEnded next :: completions (S next) rest
  | false :: rest => DecodeDone 0 false :: completions next rest
  end.








(** Two segments arrive, the first is started, a third arrives. *)
Definition arrivals : list Event :=
  [QueueAudio "A"; QueueAudio "B"; DecodeDone 0 true; QueueAudio "C"]%string.

End Player.

(* ================================================================== *)
(** ** The client's message handler ([VoiceAgent], [ws.onmessage])     *)
(* ================================================================== *)

Module Client.

(** What [ws.onmessage] passes to the playback queue: an [ai_audio]
    message enqueues its chunk, whatever its [done] flag; an [error]
    message only changes the status shown and enqueues nothing. *)
Definition onmessage (data : Session.ServerMessage) : list Player.Event :=
  match data with
  | Session.ai_audio chunk _ => [Player.QueueAudio chunk]
  | Session.error _ => []
  end.

(** The calls to the queue for the messages of a connection, in the
    order of arrival. *)
Definition received (messages : list Session.ServerMessage)
  : list Player.Event :=
  flat_map onmessage messages.

End Client.

(* ================================================================== *)
(** ** Properties of the chunker                                      *)
(* ================================================================== *)

Module ChunkerFacts.
Import JS Chunker.

Local Open Scope Z_scope.

Lemma strip_app a b :
  stripWhiteSpace (a ++ b) = stripWhiteSpace a ++ stripWhiteSpace b.
Proof. apply filter_app. Qed.

Lemma strip_rev s : stripWhiteSpace (rev s) = rev (stripWhiteSpace s).
Proof.
  induction s as [|c s IH]; simpl; [reflexivity|].
  rewrite strip_app, IH. simpl.
  destruct (isWhiteSpace c); simpl; [apply app_nil_r | reflexivity].
Qed.

Lemma strip_dropWhile s :
  stripWhiteSpace (dropWhile isWhiteSpace s) = stripWhiteSpace s.
Proof.
  induction s as [|c s IH]; simpl; [reflexivity|].
  destruct (isWhiteSpace c) eqn:E; simpl; [exact IH | now rewrite E].
Qed.

Lemma strip_trim s : stripWhiteSpace (trim s) = stripWhiteSpace s.
Proof.
  unfold trim, trimEnd, trimStart.
  rewrite strip_rev, strip_dropWhile, strip_rev, rev_involutive.
  apply strip_dropWhile.
Qed.

Lemma strip_firstn_skipn n s :
  stripWhiteSpace (firstn n s) ++ stripWhiteSpace (skipn n s)
  = stripWhiteSpace s.
Proof. now rewrite <- strip_app, firstn_skipn. Qed.

Lemma dropWhile_length {A : Type} (f : A -> bool) l :
  (length (dropWhile f l) <= length l)%nat.
Proof.
  induction l as [|x l IH]; simpl; [lia|].
  destruct (f x); simpl; lia.
Qed.

Lemma trim_length s : (length (trim s) <= length s)%nat.
Proof.
  unfold trim, trimEnd, trimStart.
  rewrite length_rev.
  etransitivity; [apply dropWhile_length|].
  rewrite length_rev. apply dropWhile_length.
Qed.

Lemma dropWhile_snoc {A : Type} (f : A -> bool) l x :
  f x = false -> dropWhile f (l ++ [x]) = dropWhile f l ++ [x].
Proof.
  intros Hx. induction l as [|y l IH]; simpl.
  - now rewrite Hx.
  - destruct (f y); [exact IH | reflexivity].
Qed.

Lemma dropWhile_headed s : headed (dropWhile isWhiteSpace s).
Proof.
  induction s as [|c s IH]; simpl; [exact I|].
  destruct (isWhiteSpace c) eqn:E; [exact IH | exact E].
Qed.

Lemma trimEnd_cons c s :
  isWhiteSpace c = false -> exists s', trimEnd (c :: s) = c :: s'.
Proof.
  intros Hc. unfold trimEnd. simpl rev.
  rewrite dropWhile_snoc by exact Hc.
  rewrite rev_app_distr. simpl. eauto.
Qed.

Lemma trim_cons c s :
  isWhiteSpace c = false -> exists s', trim (c :: s) = c :: s'.
Proof.
  intros Hc. unfold trim, trimStart. simpl. rewrite Hc.
  now apply trimEnd_cons.
Qed.

Lemma trim_headed s : headed (trim s).
Proof.
  unfold trim, trimStart.
  pose proof (dropWhile_headed s) as H.
  destruct (dropWhile isWhiteSpace s) as [|c r]; [exact I|].
  simpl in H. destruct (trimEnd_cons c r H) as [s' ->]. exact H.
Qed.

Lemma trim_firstn_nonEmpty n s :
  (1 <= n)%nat -> nonEmpty s -> headed s -> nonEmpty (trim (firstn n s)).
Proof.
  intros Hn Hs Hh. destruct s as [|c r]; [now elim Hs|].
  destruct n as [|n]; [lia|]. simpl firstn.
  destruct (trim_cons c (firstn n r) Hh) as [s' ->]. discriminate.
Qed.

(** Boolean comparisons of the source, read as propositions. *)
Ltac zbool :=
  repeat match goal with
    | H : (_ >? _) = true |- _ => rewrite Z.gtb_ltb, Z.ltb_lt in H
    | H : (_ >? _) = false |- _ => rewrite Z.gtb_ltb, Z.ltb_ge in H
    | H : (_ =? _) = true |- _ => rewrite Z.eqb_eq in H
    | H : (_ =? _) = false |- _ => rewrite Z.eqb_neq in H
    end.

Lemma len_pos_false s : (len s >? 0) = false -> s = [].
Proof.
  unfold len. destruct s; [reflexivity|].
  intros H. exfalso. zbool. simpl length in H. lia.
Qed.

Lemma len_pos_true s : (len s >? 0) = true -> nonEmpty s.
Proof.
  unfold len, nonEmpty. intros H. zbool.
  destruct s; [simpl in H; lia | discriminate].
Qed.

Lemma strip_takeWhile s : stripWhiteSpace (takeWhile isWhiteSpace s) = [].
Proof.
  induction s as [|c s IH]; simpl; [reflexivity|].
  destruct (isWhiteSpace c) eqn:E; simpl; [now rewrite E | reflexivity].
Qed.

Lemma matchBoundary_run prev s k :
  matchBoundary prev s = Some k -> k = length (takeWhile isWhiteSpace s).
Proof.
  unfold matchBoundary. destruct prev as [p|]; [|discriminate].
  destruct (isTerminator p); [|discriminate].
  destruct (length (takeWhile isWhiteSpace s)) as [|n]; [discriminate|].
  destruct (nth_error s (S n)) as [u|]; [|discriminate].
  destruct (isUpper u); [|discriminate]. now intros [= <-].
Qed.

(** The scan of [split] only drops white space. *)
Lemma strip_splitLoop s : forall skip prev piece,
  (skip <= length (takeWhile isWhiteSpace s))%nat ->
  stripWhiteSpace (concat (splitLoop skip prev piece s))
  = stripWhiteSpace piece ++ stripWhiteSpace s.
Proof.
  induction s as [|c s IH]; intros skip prev piece Hskip.
  - simpl. now rewrite !app_nil_r.
  - cbn [splitLoop]. destruct skip as [|k].
    + destruct (matchBoundary prev (c :: s)) as [[|k]|] eqn:M.
      * rewrite IH by lia. rewrite strip_app, <- app_assoc.
        now rewrite <- (strip_app [c] s).
      * apply matchBoundary_run in M. simpl in M.
        destruct (isWhiteSpace c) eqn:E; [|discriminate].
        injection M as M. cbn [concat]. rewrite strip_app.
        rewrite IH by lia. simpl. now rewrite E.
      * rewrite IH by lia. rewrite strip_app, <- app_assoc.
        now rewrite <- (strip_app [c] s).
    + simpl in Hskip. destruct (isWhiteSpace c) eqn:E; simpl in Hskip; [|lia].
      rewrite IH by lia. simpl. now rewrite E.
Qed.

Lemma strip_splitSentences text :
  stripWhiteSpace (concat (splitSentences text)) = stripWhiteSpace text.
Proof. unfold splitSentences. now rewrite strip_splitLoop by lia. Qed.

Lemma strip_concat_trimmed l :
  stripWhiteSpace
    (concat (filter (fun s => len s >? 0) (List.map trim l)))
  = stripWhiteSpace (concat l).
Proof.
  induction l as [|x l IH]; [reflexivity|].
  cbn [List.map filter concat]. rewrite strip_app, <- IH.
  destruct (len (trim x) >? 0) eqn:E.
  - cbn [concat]. now rewrite strip_app, strip_trim.
  - apply len_pos_false in E.
    now rewrite <- (strip_trim x), E.
Qed.

Lemma strip_concat_filter l :
  stripWhiteSpace (concat (filter (fun s => len s >? 0) l))
  = stripWhiteSpace (concat l).
Proof.
  induction l as [|x l IH]; [reflexivity|].
  cbn [filter concat]. rewrite strip_app, <- IH.
  destruct (len x >? 0) eqn:E.
  - cbn [concat]. now rewrite strip_app.
  - apply len_pos_false in E. now subst x.
Qed.

Lemma strip_snoc chunks x :
  stripWhiteSpace (concat (chunks ++ [x]))
  = stripWhiteSpace (concat chunks) ++ stripWhiteSpace x.
Proof. rewrite concat_app, strip_app. simpl. now rewrite app_nil_r. Qed.

Lemma strip_potential cur sentence :
  stripWhiteSpace (potentialChunk cur sentence)
  = stripWhiteSpace cur ++ stripWhiteSpace sentence.
Proof.
  unfold potentialChunk. destruct cur as [|c cur]; [reflexivity|].
  cbn [truthy]. now rewrite !strip_app.
Qed.

(** Case analysis on the overflow test of the grouping loop. *)
Ltac split_overflow :=
  match goal with
  | |- context [if ?c then (_, _) else (_, _)] => destruct c
  end.

(** Grouping sentences keeps every code unit that is not white space. *)
Lemma strip_groupSentences m sentences : forall cur chunks,
  sentences <> [] ->
  stripWhiteSpace (concat (groupSentences m sentences cur chunks))
  = stripWhiteSpace (concat chunks) ++ stripWhiteSpace cur
    ++ stripWhiteSpace (concat sentences).
Proof.
  induction sentences as [|sentence rest IH]; intros cur chunks Hne;
    [now elim Hne|].
  cbn [groupSentences concat].
  pose proof (strip_potential cur sentence) as Hp.
  split_overflow.
  - destruct rest as [|r rest'].
    + rewrite !strip_snoc, !strip_trim. simpl. now rewrite !app_nil_r, app_assoc.
    + rewrite IH by discriminate.
      rewrite strip_snoc, strip_trim, (strip_app sentence).
      now rewrite <- !app_assoc.
  - destruct rest as [|r rest'].
    + rewrite strip_snoc, strip_trim, Hp. simpl. now rewrite !app_nil_r.
    + rewrite IH by discriminate. rewrite Hp, (strip_app sentence).
      now rewrite <- !app_assoc.
Qed.

Lemma headed_groupSentences m sentences : forall cur chunks,
  Forall headed chunks ->
  Forall headed (groupSentences m sentences cur chunks).
Proof.
  induction sentences as [|sentence rest IH]; intros cur chunks Hc;
    [exact Hc|].
  cbn [groupSentences].
  assert (Hsnoc : forall l x, Forall headed l -> Forall headed (l ++ [trim x])).
  { intros l x Hl. apply Forall_app. split; [exact Hl|].
    constructor; [apply trim_headed | constructor]. }
  split_overflow; destruct rest as [|r rest']; auto.
Qed.

Lemma substring_zero s b : substring s 0 b = firstn (clamp s b) s.
Proof.
  unfold substring. replace (clamp s 0) with 0%nat by reflexivity.
  rewrite Nat.min_0_l, Nat.max_0_l, Nat.sub_0_r. reflexivity.
Qed.

Lemma lastIndexOfFrom_le s pat k : lastIndexOfFrom s pat k <= Z.of_nat k.
Proof.
  induction k as [|k IH]; cbn [lastIndexOfFrom].
  - destruct (startsWith pat (skipn 0 s)); lia.
  - destruct (startsWith pat (skipn (S k) s)); lia.
Qed.

Lemma lastIndexOf_le s pat m : 0 <= m -> lastIndexOf s pat m <= m.
Proof.
  intros Hm. unfold lastIndexOf.
  pose proof (lastIndexOfFrom_le s pat (clamp s m)). unfold clamp in *. lia.
Qed.

Lemma findBreakPoint_le remaining m bp :
  0 <= m -> findBreakPoint remaining m = Some bp -> bp <= m.
Proof.
  intros Hm H. apply find_some in H. destruct H as [Hin _].
  unfold breakPoints in Hin. simpl in Hin.
  repeat (destruct Hin as [<- | Hin]; [now apply lastIndexOf_le|]).
  contradiction.
Qed.

(** Every iteration of the [while] loop cuts [remaining] at some index
    [n] and trims both sides.  The cut is never empty, and lies at most
    one code unit past [maxLength]. *)
Lemma splitStep_cut remaining m :
  1 <= m -> len remaining > m ->
  exists n, (1 <= n)%nat /\ Z.of_nat n <= m + 1 /\
    splitStep remaining m
    = (trim (firstn n remaining), trim (skipn n remaining)).
Proof.
  intros Hm Hlen. unfold splitStep, substringFrom. rewrite !substring_zero.
  assert (Hforced : (1 <= clamp remaining m)%nat /\
                    Z.of_nat (clamp remaining m) <= m + 1).
  { unfold clamp, len in *. lia. }
  destruct (findBreakPoint remaining m) as [bp|] eqn:F.
  - destruct (negb (bp =? 0) && (bp >? 0)) eqn:C.
    + exists (clamp remaining (bp + 1)). apply findBreakPoint_le in F; [|lia].
      apply andb_prop in C. destruct C as [_ C]. zbool.
      rewrite substring_zero.
      repeat split; unfold clamp, len in *; lia.
    + exists (clamp remaining m). tauto.
  - exists (clamp remaining m). tauto.
Qed.

Lemma length_trim_skipn n s :
  (1 <= n)%nat -> nonEmpty s ->
  (length (trim (skipn n s)) < length s)%nat.
Proof.
  intros Hn Hs. pose proof (trim_length (skipn n s)) as H.
  rewrite length_skipn in H.
  destruct s; [now elim Hs | simpl length in *; lia].
Qed.

Lemma Forall_snoc {A : Type} (P : A -> Prop) l x :
  Forall P l -> P x -> Forall P (l ++ [x]).
Proof. intros Hl Hx. apply Forall_app. split; [exact Hl | now constructor]. Qed.

Lemma len_gt_nonEmpty s m : 0 <= m -> (len s >? m) = true -> nonEmpty s.
Proof.
  intros Hm H. zbool. unfold len in H.
  destruct s; [simpl in H; lia | discriminate].
Qed.

Lemma firstn_trim_bound n s m :
  Z.of_nat n <= m + 1 -> len (trim (firstn n s)) <= m + 1.
Proof.
  intros Hn. unfold len. pose proof (trim_length (firstn n s)) as H.
  rewrite length_firstn in H. lia.
Qed.

(** With a positive [maxLength] the [while] loop of [splitLongChunk]
    ends within [length remaining] iterations; it produces no empty
    chunk, keeps every code unit that is not white space, and its
    chunks are at most one code unit longer than [maxLength]. *)
Lemma splitLongLoop_spec m (Hm : 1 <= m) : forall fuel remaining chunks,
  (length remaining <= fuel)%nat -> headed remaining ->
  Forall nonEmpty chunks -> Forall (fun c => len c <= m + 1) chunks ->
  exists r, splitLongLoop fuel m remaining chunks = Some r /\
    Forall nonEmpty r /\ Forall (fun c => len c <= m + 1) r /\
    stripWhiteSpace (concat r)
    = stripWhiteSpace (concat chunks) ++ stripWhiteSpace remaining.
Proof.
  assert (Hdone : forall remaining chunks,
    (len remaining >? m) = false ->
    Forall nonEmpty chunks -> Forall (fun c => len c <= m + 1) chunks ->
    Forall nonEmpty (pushRemaining remaining chunks) /\
    Forall (fun c => len c <= m + 1) (pushRemaining remaining chunks) /\
    stripWhiteSpace (concat (pushRemaining remaining chunks))
    = stripWhiteSpace (concat chunks) ++ stripWhiteSpace remaining).
  { intros remaining chunks Hle Hc Hb. unfold pushRemaining.
    destruct (len remaining >? 0) eqn:E.
    - repeat split; [apply Forall_snoc; auto using len_pos_true | | apply strip_snoc].
      apply Forall_snoc; [exact Hb | zbool; lia].
    - apply len_pos_false in E. subst. simpl. now rewrite app_nil_r. }
  induction fuel as [|fuel IH]; intros remaining chunks Hfuel Hh Hc Hb;
    cbn [splitLongLoop]; destruct (len remaining >? m) eqn:E;
    try (eexists; split; [reflexivity | now apply Hdone]).
  - exfalso. zbool. unfold len in E. lia.
  - pose proof (len_gt_nonEmpty remaining m ltac:(lia) E) as Hne.
    assert (Hlen : len remaining > m) by (zbool; lia).
    destruct (splitStep_cut remaining m Hm Hlen) as (n & Hn & Hn' & ->).
    destruct (IH (trim (skipn n remaining))
                 (chunks ++ [trim (firstn n remaining)]))
      as (r & Hr & Hr1 & Hr2 & Hr3).
    + pose proof (length_trim_skipn n remaining Hn Hne). lia.
    + apply trim_headed.
    + apply Forall_snoc; [exact Hc | now apply trim_firstn_nonEmpty].
    + apply Forall_snoc; [exact Hb | now apply firstn_trim_bound].
    + exists r. repeat split; [exact Hr | exact Hr1 | exact Hr2 |].
      rewrite Hr3, strip_snoc, !strip_trim, <- app_assoc.
      now rewrite strip_firstn_skipn.
Qed.

Lemma splitLongChunk_spec m text :
  1 <= m -> headed text ->
  exists r, splitLongChunk text m = Some r /\ Forall nonEmpty r /\
    Forall (fun c => len c <= m + 1) r /\
    stripWhiteSpace (concat r) = stripWhiteSpace text.
Proof.
  intros Hm Hh. unfold splitLongChunk.
  destruct (splitLongLoop_spec m Hm (length text) text [])
    as (r & Hr & Hr1 & Hr2 & Hr3); auto.
  exists r. auto.
Qed.

(** The final [filter] and [flatMap] of [createOptimalTTSChunks]. *)
Lemma flatMapLoop_spec m (Hm : 1 <= m) chunks :
  Forall headed chunks ->
  exists r,
    flatMapLoop
      (fun chunk =>
         if len chunk >? m then splitLongChunk chunk m else Some [chunk])
      (filter (fun chunk => len chunk >? 0) chunks) = Some r /\
    Forall nonEmpty r /\ Forall (fun c => len c <= m + 1) r /\
    stripWhiteSpace (concat r) = stripWhiteSpace (concat chunks).
Proof.
  induction 1 as [|chunk chunks Hh Hf (r & Hr & Hr1 & Hr2 & Hr3)].
  - exists []. repeat split; constructor.
  - cbn [filter concat]. rewrite strip_app.
    destruct (len chunk >? 0) eqn:E.
    + cbn [flatMapLoop]. rewrite Hr.
      destruct (len chunk >? m) eqn:L.
      * destruct (splitLongChunk_spec m chunk Hm Hh)
          as (l & -> & Hl1 & Hl2 & Hl3).
        exists (l ++ r). repeat split.
        -- now apply Forall_app.
        -- now apply Forall_app.
        -- now rewrite concat_app, strip_app, Hl3, Hr3.
      * exists ([chunk] ++ r). repeat split.
        -- constructor; [now apply len_pos_true | exact Hr1].
        -- constructor; [zbool; lia | exact Hr2].
        -- cbn [app concat]. now rewrite strip_app, Hr3.
    + apply len_pos_false in E. subst chunk. exists r. auto.
Qed.

(** What [createOptimalTTSChunks] returns for a positive maximum: it
    always returns, no segment is empty, the non-white-space content of
    the reply is kept in order, and a segment is at most one code unit
    longer than the maximum. *)
Lemma createOptimalTTSChunks_spec text m :
  1 <= m ->
  exists segments,
    createOptimalTTSChunks text m = Some segments /\
    Forall nonEmpty segments /\
    Forall (fun c => len c <= m + 1) segments /\
    stripWhiteSpace (concat segments) = stripWhiteSpace text.
Proof.
  intros Hm. unfold createOptimalTTSChunks.
  destruct (negb (truthy text) || (len (trim text) =? 0)) eqn:G.
  - exists []. repeat split; try constructor.
    apply orb_prop in G. destruct G as [G | G].
    + destruct text; [reflexivity | discriminate].
    + zbool. unfold len in G. rewrite <- (strip_trim text).
      destruct (trim text); [reflexivity | simpl in G; lia].
  - apply orb_false_elim in G. destruct G as [_ G]. zbool.
    pose proof (strip_concat_trimmed (splitSentences text)) as Hs.
    rewrite strip_splitSentences in Hs.
    destruct (filter (fun s => len s >? 0) (List.map trim (splitSentences text)))
      as [|sentence rest] eqn:S.
    + exfalso. simpl in Hs.
      pose proof (trim_headed text) as Hh.
      pose proof (strip_trim text) as Hst. rewrite <- Hs in Hst.
      destruct (trim text) as [|c t]; [now apply G|].
      simpl in Hh, Hst. rewrite Hh in Hst. discriminate.
    + destruct (flatMapLoop_spec m Hm
                  (groupSentences m (sentence :: rest) [] []))
        as (r & Hr & Hr1 & Hr2 & Hr3).
      { apply headed_groupSentences. constructor. }
      exists r. repeat split; [exact Hr | exact Hr1 | exact Hr2 |].
      rewrite Hr3, strip_groupSentences by discriminate.
      simpl. exact Hs.
Qed.

(** With a maximum of zero the forced cut takes nothing off
    [remaining]: the [while] loop of [splitLongChunk] never ends. *)
Lemma splitLongLoop_zero_diverges fuel : forall chunks,
  splitLongLoop fuel 0 (lit "a") chunks = None.
Proof.
  induction fuel as [|fuel IH]; intros chunks; [reflexivity|].
  cbn [splitLongLoop].
  replace (len (lit "a") >? 0) with true by reflexivity.
  replace (splitStep (lit "a") 0) with (@nil char, lit "a") by reflexivity.
  apply IH.
Qed.

(** The scenarios of the specification: a short reply is one segment,
    and a reply of 200 code units without white space or terminators is
    cut every 50 code units. *)
Example short_reply_is_one_segment :
  createOptimalTTSChunks (lit "Hi.") defaultMaxChunkLength = Some [lit "Hi."].
Proof. reflexivity. Qed.

Example unbroken_reply_is_cut_hard :
  createOptimalTTSChunks (repeat 97%N 200) defaultMaxChunkLength
  = Some (repeat (repeat 97%N 50) 4).
Proof. vm_compute. reflexivity. Qed.

(** C2 at a reply the chunker can receive.  The first 51 code units of
    the reply end in a comma that sits at index 50, the last index
    [lastIndexOf(', ', 50)] accepts; the cut after the comma gives a
    segment of 51 code units, one more than the maximum 50. *)
Theorem overlong_segment_after_comma :
  createOptimalTTSChunks restaurantReply defaultMaxChunkLength
  = Some [lit "I would recommend the small Italian place downtown,";
          lit "it is quiet and cheap."] /\
  len (lit "I would recommend the small Italian place downtown,") = 51 /\
  ~ Forall (fun segment => len segment <= defaultMaxChunkLength)
      [lit "I would recommend the small Italian place downtown,";
       lit "it is quiet and cheap."].
Proof.
  split; [vm_compute; reflexivity|]. split; [reflexivity|].
  intros H. inversion H as [|? ? Hlen _]. vm_compute in Hlen. now apply Hlen.
Qed.

End ChunkerFacts.

(* ================================================================== *)
(** ** Properties of the session                                      *)
(* ================================================================== *)

Module SessionFacts.
Import JS Session.

Section Facts.

Variable fromBase64 : string -> list byte.
Variable toBase64 : list byte -> string.

Local Abbreviation onMessage := (Session.onMessage fromBase64).
Local Abbreviation completeBuffer := (Session.completeBuffer fromBase64).
Local Abbreviation resume := (Session.resume toBase64).
Local Abbreviation step := (Session.step fromBase64 toBase64).
Local Abbreviation run := (Session.run fromBase64 toBase64).

Lemma run_app events1 events2 s :
  run (events1 ++ events2) s
  = match run events1 s with
    | Some (s1, effects1) =>
        match run events2 s1 with
        | Some (s2, effects2) => Some (s2, effects1 ++ effects2)
        | None => None
        end
    | None => None
    end.
Proof.
  revert s. induction events1 as [|e events1 IH]; intros s; cbn [run app].
  - destruct (run events2 s) as [[s2 effects2]|]; reflexivity.
  - destruct (step s e) as [[s' effects]|]; [|reflexivity].
    rewrite IH. destruct (run events1 s') as [[s1 effects1]|]; [|reflexivity].
    destruct (run events2 s1) as [[s2 effects2]|]; [|reflexivity].
    now rewrite app_assoc.
Qed.

(** Chunk messages of an open session append to the buffer, in order. *)
Lemma run_chunks u id chunks : forall acc busy t,
  truthyString (Some id) = true ->
  Forall (fun b64 => truthyString (Some b64) = true) chunks ->
  run (List.map (fun b64 => Message u (chunkOf b64)) chunks)
      {| conn := {| audioChunks := acc; inProgress := busy;
                    currentSessionId := Some id |};
         turn := t; closed := false |}
  = Some ({| conn := {| audioChunks := acc ++ chunks; inProgress := busy;
                        currentSessionId := Some id |};
             turn := t; closed := false |}, []).
Proof.
  induction chunks as [|b64 chunks IH]; intros acc busy t Hid Hall.
  - cbn. now rewrite app_nil_r.
  - inversion Hall as [|? ? Hb Hrest]; subst.
    cbn [List.map run]. unfold Session.step at 1.
    cbn [closed conn turn]. unfold Session.onMessage.
    cbn [type chunkOf chunk currentSessionId audioChunks inProgress].
    rewrite Hid. cbn [negb].
    destruct b64 as [|a b64]; [discriminate|].
    destruct t; rewrite IH by assumption; cbn [app];
      now rewrite <- app_assoc.
Qed.

Lemma length_zero_nil {A : Type} (l : list A) :
  (length l =? 0)%nat = true -> l = [].
Proof. destruct l; [reflexivity | discriminate]. Qed.

(** C1, as the handler has it.  A start message received while
    Processing changes nothing and starts nothing; a start message
    received while Capturing begins a fresh session, with the new
    session id and an empty chunk buffer; a chunk or end message
    received with no active session changes nothing. *)
Theorem unexpected_signal_outcome uuid data c :
  (type data = user_audio_start -> isProcessing c = true ->
   onMessage uuid data c = (c, [], None)) /\
  (type data = user_audio_start -> isCapturing c = true ->
   onMessage uuid data c
   = ({| audioChunks := []; inProgress := false;
         currentSessionId := Some uuid |}, [], None)) /\
  (type data <> user_audio_start -> isIdle c = true ->
   onMessage uuid data c = (c, [], None)).
Proof.
  unfold isProcessing, isCapturing, isIdle, Session.onMessage.
  repeat split.
  - intros -> ->. reflexivity.
  - intros -> H. apply andb_prop in H. destruct H as [_ H].
    apply negb_true_iff in H. now rewrite H.
  - intros Ht H. apply negb_true_iff in H.
    destruct (type data); [now elim Ht | |].
    + now rewrite H.
    + unfold truthyString in H.
      destruct (currentSessionId c) as [[|a id]|];
        [reflexivity | discriminate | reflexivity].
Qed.

(** C6.  When an end message is accepted (the session is Capturing) and
    the assembled buffer has fewer than 1000 bytes, the handler starts
    no turn, makes no call at all (so it sends no error message), and
    leaves the session idle: empty chunk buffer, no session id,
    in-progress flag cleared. *)
Theorem small_buffer_discarded uuid data c :
  type data = user_audio_end ->
  isCapturing c = true ->
  (length (completeBuffer c) < 1000)%nat ->
  onMessage uuid data c = (idle, [], None).
Proof.
  intros Ht Hc Hsmall. unfold isCapturing in Hc.
  apply andb_prop in Hc. destruct Hc as [Hid Hbusy].
  apply negb_true_iff in Hbusy.
  unfold Session.onMessage. rewrite Ht, Hbusy.
  unfold truthyString in Hid.
  destruct (currentSessionId c) as [[|a id]|]; try discriminate.
  destruct (length (audioChunks c) =? 0)%nat eqn:E.
  - apply length_zero_nil in E. rewrite E. reflexivity.
  - apply Nat.ltb_lt in Hsmall. now rewrite Hsmall.
Qed.

(** C5.  From a connection with no turn in flight, a start message
    followed by chunk messages with non-empty chunk fields leaves the
    chunks in the buffer in arrival order, so that the utterance buffer
    assembled from it is the concatenation of the decoded chunks in
    that order; the end message then hands exactly this buffer to the
    pipeline, unless it has fewer than 1000 bytes. *)
Theorem utterance_buffer_concatenates u id chunks s :
  closed s = false -> turn s = None -> inProgress (conn s) = false ->
  truthyString (Some id) = true ->
  Forall (fun b64 => truthyString (Some b64) = true) chunks ->
  let capture :=
    Message id start :: List.map (fun b64 => Message u (chunkOf b64)) chunks in
  let buffer := concat (List.map fromBase64 chunks) in
  (exists s1, run capture s = Some (s1, []) /\
     audioChunks (conn s1) = chunks /\ completeBuffer (conn s1) = buffer) /\
  run (capture ++ [Message u finish]) s
  = Some
      (if (length buffer <? 1000)%nat
       then ({| conn := idle; turn := None; closed := false |}, [])
       else ({| conn := {| audioChunks := chunks; inProgress := true;
                           currentSessionId := Some id |};
                turn := Some (AwaitWriteFile id); closed := false |},
             [writeFile id buffer])).
Proof.
  intros Hopen Hturn Hbusy Hid Hall capture buffer.
  assert (Hcap : run capture s
    = Some ({| conn := {| audioChunks := chunks; inProgress := false;
                          currentSessionId := Some id |};
               turn := None; closed := false |}, [])).
  { subst capture. cbn [Session.run]. unfold Session.step at 1.
    rewrite Hopen. unfold Session.onMessage at 1. cbn [type start].
    rewrite Hbusy, Hturn.
    rewrite (run_chunks u id chunks [] false None Hid Hall). reflexivity. }
  split.
  - eexists. split; [exact Hcap|]. split; reflexivity.
  - rewrite run_app, Hcap. cbn [Session.run]. unfold Session.step.
    cbn [closed conn turn]. unfold Session.onMessage.
    cbn [type finish currentSessionId inProgress audioChunks].
    unfold truthyString in Hid. destruct id as [|a id]; [discriminate|].
    unfold Session.completeBuffer. cbn [audioChunks]. fold buffer.
    destruct (length chunks =? 0)%nat eqn:E.
    + apply length_zero_nil in E. subst chunks buffer. reflexivity.
    + destruct (length buffer <? 1000)%nat; reflexivity.
Qed.

(** C7.  Whatever [await] a turn is suspended at: when the awaited call
    fails, the error message with the failure's description is sent,
    the turn is over and the session is idle; and whenever a settlement
    ends the turn, successfully or not, the session is idle: empty
    chunk buffer, no session id, in-progress flag cleared. *)
Theorem turn_exit_resets s t :
  turn s = Some t ->
  (forall message,
     step s (Settle (Rejected message))
     = Some ({| conn := idle; turn := None; closed := closed s |},
             [ws_send (error message)])) /\
  (forall r s' effects,
     step s (Settle r) = Some (s', effects) ->
     turn s' = None -> conn s' = idle).
Proof.
  intros Ht. split.
  - intros message. unfold Session.step. rewrite Ht. reflexivity.
  - intros r s' effects. unfold Session.step. rewrite Ht.
    destruct (resume t r (conn s)) as [[[c eff] t']|] eqn:R; [|discriminate].
    intros [= <- <-]. cbn [turn conn]. intros ->.
    unfold Session.resume in R.
    destruct r, t; try discriminate; try (now injection R as <-).
    + destruct (Chunker.createOptimalTTSChunks finalResponse
                  Chunker.defaultMaxChunkLength) as [chunks|]; [|discriminate].
      unfold speechLoop in R.
      destruct (nth_error chunks 0); now injection R as <-.
    + unfold speechLoop in R.
      destruct (nth_error chunks (S i)); now injection R as <-.
Qed.

Lemma isLast_nat chunks i : isLast chunks i = (S i =? length chunks)%nat.
Proof.
  unfold isLast.
  destruct (Nat.eqb_spec (S i) (length chunks));
    [apply Z.eqb_eq | apply Z.eqb_neq]; lia.
Qed.

Lemma isLast_skipn chunks i chunk :
  nth_error chunks i = Some chunk ->
  isLast chunks i
  = match skipn (S i) chunks with [] => true | _ :: _ => false end.
Proof.
  intros Hi. assert (Hlt : (i < length chunks)%nat).
  { apply nth_error_Some. congruence. }
  rewrite isLast_nat.
  pose proof (length_skipn (S i) chunks) as Hl.
  destruct (skipn (S i) chunks); cbn [length] in Hl;
    [apply Nat.eqb_eq | apply Nat.eqb_neq]; lia.
Qed.

Lemma skipn_nth_error {A : Type} (l : list A) i x :
  nth_error l i = Some x -> skipn i l = x :: skipn (S i) l.
Proof.
  revert i. induction l as [|y l IH]; intros [|i] H; try discriminate.
  - now injection H as ->.
  - cbn [nth_error] in H. cbn [skipn]. now apply IH.
Qed.

(** The synthesis loop from its head at index [i], every call
    succeeding: the calls and messages follow [synthesisTrace], and the
    turn then ends with the session idle. *)
Lemma speechLoop_run chunks cl c : forall audios i,
  length audios = length (skipn i chunks) ->
  exists effects,
    (let '(c1, effects1, t) := speechLoop chunks i c in
     match run (synthesized audios)
             {| conn := c1; turn := t; closed := cl |} with
     | Some (s', effects2) =>
         s' = {| conn := idle; turn := None; closed := cl |} /\
         effects = effects1 ++ effects2
     | None => False
     end) /\
    effects = synthesisTrace toBase64 (skipn i chunks) audios.
Proof.
  induction audios as [|audio audios IH]; intros i Hlen.
  - cbn [length] in Hlen. symmetry in Hlen. apply length_zero_iff_nil in Hlen.
    exists []. split; [|now rewrite Hlen].
    unfold speechLoop.
    destruct (nth_error chunks i) as [chunk|] eqn:E.
    + apply skipn_nth_error in E. congruence.
    + cbn. auto.
  - destruct (nth_error chunks i) as [chunk|] eqn:E.
    + pose proof (skipn_nth_error chunks i chunk E) as Hs.
      rewrite Hs in Hlen. cbn [length] in Hlen.
      destruct (IH (S i)) as (effects & Hrun & Htrace); [lia|].
      exists (speech_create chunk :: arrayBuffer
              :: ws_send (ai_audio (toBase64 audio) (isLast chunks i))
              :: effects).
      split.
      * unfold speechLoop at 1. rewrite E.
        cbn [synthesized flat_map app Session.run].
        unfold Session.step at 1. cbn [turn conn closed Session.resume].
        unfold Session.step at 1. cbn [turn conn closed Session.resume].
        destruct (speechLoop chunks (S i) c) as [[c1 effects1] t1].
        fold (synthesized audios).
        destruct (run (synthesized audios)
                    {| conn := c1; turn := t1; closed := cl |})
          as [[s' effects2]|]; [|contradiction].
        destruct Hrun as [-> ->]. split; reflexivity.
      * rewrite Hs, Htrace. cbn [synthesisTrace].
        now rewrite (isLast_skipn chunks i chunk E).
    + apply nth_error_None in E. rewrite skipn_all2 in Hlen by exact E.
      discriminate.
Qed.

Lemma sent_synthesisTrace chunks : forall audios,
  length audios = length chunks ->
  length (sent (synthesisTrace toBase64 chunks audios)) = length chunks /\
  forall i audio,
    nth_error audios i = Some audio ->
    nth_error (sent (synthesisTrace toBase64 chunks audios)) i
    = Some (ai_audio (toBase64 audio) (S i =? length chunks)%nat).
Proof.
  induction chunks as [|chunk chunks IH]; intros [|audio audios] Hlen;
    try discriminate.
  - split; [reflexivity|]. intros [|i]; discriminate.
  - cbn [length] in Hlen. injection Hlen as Hlen.
    destruct (IH audios Hlen) as [IH1 IH2].
    cbn [synthesisTrace sent length]. split; [now rewrite IH1|].
    intros [|i] a Ha.
    + injection Ha as ->. cbn [nth_error]. now destruct chunks.
    + cbn [nth_error] in *. rewrite (IH2 i a Ha). reflexivity.
Qed.

(** C8, as the handler has it.  When the reply stream of a turn ends and
    every synthesis call succeeds, the handler requests the synthesis
    of one segment, reads its body and sends its [ai_audio] message
    before it requests the next segment; it sends exactly one message
    per segment, in segment order, with [done] set on the message of
    the final segment and on no other.  The messages hold the audio
    and the flag only: the position of a segment is the position of
    its message in the stream. *)
Theorem synthesis_one_by_one finalResponse chunks audios s :
  turn s = Some (AwaitChatStream finalResponse) ->
  Chunker.createOptimalTTSChunks finalResponse Chunker.defaultMaxChunkLength
  = Some chunks ->
  length audios = length chunks ->
  run (Settle ResolvedEnd :: synthesized audios) s
  = Some ({| conn := idle; turn := None; closed := closed s |},
          synthesisTrace toBase64 chunks audios) /\
  length (sent (synthesisTrace toBase64 chunks audios)) = length chunks /\
  forall i audio,
    nth_error audios i = Some audio ->
    nth_error (sent (synthesisTrace toBase64 chunks audios)) i
    = Some (ai_audio (toBase64 audio) (S i =? length chunks)%nat).
Proof.
  intros Ht Hchunks Hlen. split; [|now apply sent_synthesisTrace].
  cbn [Session.run]. unfold Session.step at 1. rewrite Ht.
  cbn [Session.resume]. rewrite Hchunks.
  destruct (speechLoop_run chunks (closed s) (conn s) audios 0 Hlen)
    as (effects & Hrun & ->).
  destruct (speechLoop chunks 0 (conn s)) as [[c1 effects1] t1].
  destruct (run (synthesized audios)
              {| conn := c1; turn := t1; closed := closed s |})
    as [[s' effects2]|]; [|contradiction].
  destruct Hrun as [-> <-]. reflexivity.
Qed.

(** C10.  When the reply stream ends with an empty or white-space-only
    reply, the chunker returns no segment, the handler makes no call
    and sends no message (so no [ai_audio] message, with or without
    [done]), and the turn ends with the session idle. *)
Theorem blank_reply_sends_nothing finalResponse s :
  turn s = Some (AwaitChatStream finalResponse) ->
  trim finalResponse = [] ->
  Chunker.createOptimalTTSChunks finalResponse Chunker.defaultMaxChunkLength
  = Some [] /\
  step s (Settle ResolvedEnd)
  = Some ({| conn := idle; turn := None; closed := closed s |}, []).
Proof.
  intros Ht Hblank.
  assert (Hc : Chunker.createOptimalTTSChunks finalResponse
                 Chunker.defaultMaxChunkLength = Some []).
  { unfold Chunker.createOptimalTTSChunks. rewrite Hblank.
    now rewrite orb_true_r. }
  split; [exact Hc|].
  unfold Session.step. rewrite Ht. cbn [Session.resume]. now rewrite Hc.
Qed.

Lemma onMessage_guard uuid data c c' effects t :
  onMessage uuid data c = (c', effects, t) ->
  (inProgress c = true -> inProgress c' = true /\ t = None) /\
  (t <> None -> inProgress c' = true).
Proof.
  unfold Session.onMessage.
  repeat match goal with
         | |- context [match ?x with _ => _ end] => destruct x eqn:?
         end;
    intros [= <- <- <-]; cbn [inProgress]; split;
    solve [ intros H; try (now elim H); split; congruence
          | intros; reflexivity
          | intros; congruence ].
Qed.

Lemma resume_guard t r c c' effects t' :
  resume t r c = Some (c', effects, t') -> t' <> None -> c' = c.
Proof.
  intros R Hn. unfold Session.resume in R.
  destruct r, t; try discriminate;
    try (injection R as <- <- <-; reflexivity || now elim Hn).
  - destruct (Chunker.createOptimalTTSChunks finalResponse
                Chunker.defaultMaxChunkLength) as [chunks|]; [|discriminate].
    unfold speechLoop in R.
    destruct (nth_error chunks 0); injection R as <- <- <-;
      [reflexivity | now elim Hn].
  - unfold speechLoop in R.
    destruct (nth_error chunks (S i)); injection R as <- <- <-;
      [reflexivity | now elim Hn].
Qed.

Lemma step_guarded s e s' effects :
  guarded s -> step s e = Some (s', effects) -> guarded s'.
Proof.
  unfold guarded. intros Hg Hstep. destruct e as [uuid data| |r]; cbn in Hstep.
  - destruct (closed s) eqn:Hc; [discriminate|]. specialize (Hg eq_refl).
    destruct (onMessage uuid data (conn s)) as [[c eff] t] eqn:M.
    destruct (onMessage_guard uuid data (conn s) c eff t M) as [Hbusy Hnew].
    destruct t as [t|], (turn s) as [old|] eqn:T; try discriminate;
      injection Hstep as <- <-; cbn; intros _ Hn.
    + apply Hnew. discriminate.
    + apply Hbusy. apply Hg. discriminate.
    + now elim Hn.
  - destruct (closed s); [discriminate|]. injection Hstep as <- <-.
    cbn. discriminate.
  - destruct (turn s) as [t|] eqn:T; [|discriminate].
    destruct (resume t r (conn s)) as [[[c eff] t']|] eqn:R; [|discriminate].
    injection Hstep as <- <-. cbn. intros Hc Hn.
    rewrite (resume_guard t r (conn s) c eff t' R Hn).
    apply Hg; [exact Hc | discriminate].
Qed.

Lemma run_guarded events : forall s s' effects,
  guarded s -> run events s = Some (s', effects) -> guarded s'.
Proof.
  induction events as [|e events IH]; intros s s' effects Hg Hrun;
    cbn [Session.run] in Hrun.
  - now injection Hrun as <- <-.
  - destruct (step s e) as [[s1 effects1]|] eqn:S1; [|discriminate].
    destruct (run events s1) as [[s2 effects2]|] eqn:R; [|discriminate].
    injection Hrun as <- <-.
    exact (IH s1 s2 effects2 (step_guarded s e s1 effects1 Hg S1) R).
Qed.

(** On an open socket every message is handled: the handler never
    starts a turn while another one is in flight. *)
Lemma message_always_handled s uuid data :
  guarded s -> closed s = false -> step s (Message uuid data) <> None.
Proof.
  unfold guarded. intros Hg Hc. cbn. rewrite Hc.
  destruct (onMessage uuid data (conn s)) as [[c eff] t] eqn:M.
  destruct t as [t|]; [|discriminate].
  destruct (turn s) eqn:T; [|discriminate].
  specialize (Hg Hc ltac:(discriminate)).
  unfold Session.onMessage in M. rewrite Hg in M.
  destruct (type data), (currentSessionId (conn s)) as [[|a id]|],
    (chunk data) as [[|b b64]|]; discriminate.
Qed.

End Facts.

Local Open Scope string_scope.

Lemma start_while_capturing_restarts :
  isCapturing capturingSample = true /\
  Session.onMessage Base64.decode "9b7e" start capturingSample
  <> (capturingSample, [], None).
Proof. split; [reflexivity|]. vm_compute. discriminate. Qed.

Lemma unexpected_signal_outcome_witness :
  Session.onMessage Base64.decode "9b7e" start processingSample
  = (processingSample, [], None) /\
  Session.onMessage Base64.decode "9b7e" start capturingSample
  = ({| audioChunks := []; inProgress := false;
        currentSessionId := Some "9b7e" |}, [], None) /\
  Session.onMessage Base64.decode "9b7e" (chunkOf "aGVsbG8=") idle
  = (idle, [], None) /\
  Session.onMessage Base64.decode "9b7e" finish idle = (idle, [], None).
Proof.
  split; [|split; [|split]].
  - apply (proj1 (unexpected_signal_outcome Base64.decode "9b7e" start
                    processingSample)); reflexivity.
  - apply (proj1 (proj2 (unexpected_signal_outcome Base64.decode "9b7e" start
                           capturingSample))); reflexivity.
  - apply (proj2 (proj2 (unexpected_signal_outcome Base64.decode "9b7e"
                           (chunkOf "aGVsbG8=") idle)));
      [discriminate | reflexivity].
  - apply (proj2 (proj2 (unexpected_signal_outcome Base64.decode "9b7e"
                           finish idle)));
      [discriminate | reflexivity].
Defined.

Lemma small_buffer_discarded_witness :
  type finish = user_audio_end /\
  isCapturing capturingSample = true /\
  (length (Session.completeBuffer Base64.decode capturingSample) < 1000)%nat /\
  Session.onMessage Base64.decode "9b7e" finish capturingSample
  = (idle, [], None).
Proof.
  assert (H : (length (Session.completeBuffer Base64.decode capturingSample)
               < 1000)%nat) by (vm_compute; lia).
  split; [reflexivity|]. split; [reflexivity|]. split; [exact H|].
  apply (small_buffer_discarded Base64.decode "9b7e" finish capturingSample);
    [reflexivity | reflexivity | exact H].
Defined.

Lemma utterance_buffer_concatenates_witness :
  (exists s1,
     Session.run Base64.decode Base64.encode
       (Message "9b7e" start
        :: List.map (fun b64 => Message "" (chunkOf b64))
             ["aGVsbG8="; "IHdvcmxk"]) connected = Some (s1, []) /\
     audioChunks (conn s1) = ["aGVsbG8="; "IHdvcmxk"] /\
     Session.completeBuffer Base64.decode (conn s1)
     = concat (List.map Base64.decode ["aGVsbG8="; "IHdvcmxk"])) /\
  Session.run Base64.decode Base64.encode
    ((Message "9b7e" start
      :: List.map (fun b64 => Message "" (chunkOf b64))
           ["aGVsbG8="; "IHdvcmxk"]) ++ [Message "" finish]) connected
  = Some
      (if (length (concat (List.map Base64.decode ["aGVsbG8="; "IHdvcmxk"]))
           <? 1000)%nat
       then ({| conn := idle; turn := None; closed := false |}, [])
       else ({| conn := {| audioChunks := ["aGVsbG8="; "IHdvcmxk"];
                           inProgress := true;
                           currentSessionId := Some "9b7e" |};
                turn := Some (AwaitWriteFile "9b7e"); closed := false |},
             [writeFile "9b7e"
                (concat (List.map Base64.decode ["aGVsbG8="; "IHdvcmxk"]))])).
Proof.
  apply (utterance_buffer_concatenates Base64.decode Base64.encode
           "" "9b7e" ["aGVsbG8="; "IHdvcmxk"] connected);
    try reflexivity.
  repeat constructor.
Defined.

Lemma turn_exit_resets_witness :
  Session.step Base64.decode Base64.encode transcribingSample
    (Settle (Rejected "Connection error."))
  = Some ({| conn := idle; turn := None; closed := false |},
          [ws_send (error "Connection error.")]) /\
  conn {| conn := idle; turn := None; closed := false |} = idle.
Proof.
  destruct (turn_exit_resets Base64.decode Base64.encode transcribingSample
              AwaitTranscribe eq_refl) as [Hfail Hexit].
  split; [apply Hfail|].
  apply (Hexit (Rejected "Connection error.")
               {| conn := idle; turn := None; closed := false |}
               [ws_send (error "Connection error.")]); reflexivity.
Defined.

Lemma ai_audio_lacks_position :
  exists s' effects,
    Session.run Base64.decode Base64.encode
      (Settle ResolvedEnd :: synthesized [beep; beep; beep])
      (streamingSample Chunker.weatherReply) = Some (s', effects) /\
    length (sent effects) = 3%nat /\
    ~ exists position, carriesPosition position (sent effects).
Proof.
  eexists. eexists. split; [vm_compute; reflexivity|].
  split; [reflexivity|]. intros [position H].
  pose proof (H 0%nat _ eq_refl) as H0.
  pose proof (H 1%nat _ eq_refl) as H1.
  cbn in H0, H1. congruence.
Qed.

Lemma synthesis_one_by_one_witness :
  Session.run Base64.decode Base64.encode
    (Settle ResolvedEnd :: synthesized [beep; beep; beep])
    (streamingSample Chunker.weatherReply)
  = Some ({| conn := idle; turn := None; closed := false |},
          synthesisTrace Base64.encode weatherSegments [beep; beep; beep]) /\
  length (sent (synthesisTrace Base64.encode weatherSegments
                  [beep; beep; beep])) = length weatherSegments /\
  forall i audio,
    nth_error [beep; beep; beep] i = Some audio ->
    nth_error (sent (synthesisTrace Base64.encode weatherSegments
                       [beep; beep; beep])) i
    = Some (ai_audio (Base64.encode audio)
              (S i =? length weatherSegments)%nat).
Proof.
  apply (synthesis_one_by_one Base64.decode Base64.encode
           Chunker.weatherReply weatherSegments [beep; beep; beep]
           (streamingSample Chunker.weatherReply));
    [reflexivity | vm_compute; reflexivity | reflexivity].
Defined.

Lemma blank_reply_sends_nothing_witness :
  trim (lit "   ") = [] /\
  Chunker.createOptimalTTSChunks (lit "   ") Chunker.defaultMaxChunkLength
  = Some [] /\
  Session.step Base64.decode Base64.encode (streamingSample (lit "   "))
    (Settle ResolvedEnd)
  = Some ({| conn := idle; turn := None; closed := false |}, []).
Proof.
  split; [reflexivity|].
  apply (blank_reply_sends_nothing Base64.decode Base64.encode (lit "   ")
           (streamingSample (lit "   "))); reflexivity.
Defined.

End SessionFacts.

(* ================================================================== *)
(** ** Properties of the playback queue                               *)
(* ================================================================== *)

Module PlayerFacts.
Import Player.

Local Open Scope string_scope.
Local Open Scope list_scope.

Lemma sequential_app ph signals1 signals2 :
  sequential ph (signals1 ++ signals2)
  = match sequential ph signals1 with
    | Some ph1 => sequential ph1 signals2
    | None => None
    end.
Proof.
  revert ph. induction signals1 as [|s signals1 IH]; intros ph; cbn;
    [reflexivity|].
  destruct (advance ph s); [apply IH | reflexivity].
Qed.

Lemma dequeued_app signals1 signals2 :
  dequeued (signals1 ++ signals2) = dequeued signals1 ++ dequeued signals2.
Proof.
  induction signals1 as [|s signals1 IH]; cbn; [reflexivity|].
  destruct s; cbn; now rewrite IH.
Qed.

Lemma processNextAudio_quiet p :
  isPlaying p = true -> decoding p = [] -> sources p = [] ->
  exists ph,
    sequential Quiet (snd (processNextAudio p)) = Some ph /\
    inPhase (fst (processNextAudio p)) ph /\
    dequeued (snd (processNextAudio p)) ++ audioQueue (fst (processNextAudio p))
    = audioQueue p.
Proof.
  intros Hplay Hdec Hsrc. unfold processNextAudio.
  destruct (audioQueue p) as [|x rest].
  - exists Quiet. cbn. repeat split; auto.
  - exists (Loading x). cbn. rewrite Hdec. repeat split; auto.
Qed.

(** One event that is not a stop keeps the playback sequential and the
    queue in arrival order. *)
Lemma step_sequential p ph e p' signals :
  inPhase p ph -> isStop e = false -> step p e = Some (p', signals) ->
  exists ph',
    sequential ph signals = Some ph' /\ inPhase p' ph' /\
    dequeued signals ++ audioQueue p' = audioQueue p ++ enqueued [e].
Proof.
  intros Hin Hstop Hstep. destruct e as [base64| |k ok|id];
    [| discriminate | |]; cbn [step enqueued] in *.
  - (* queueAudio *)
    unfold queueAudio in Hstep. cbn [isPlaying audioQueue] in Hstep.
    destruct ph as [|x|id x]; cbn [inPhase] in Hin.
    + destruct Hin as (Hplay & Hq & Hdec & Hsrc).
      rewrite Hplay, Hq in Hstep. cbn in Hstep. rewrite Hdec in Hstep.
      injection Hstep as <- <-. exists (Loading base64).
      cbn. rewrite Hq. repeat split; auto.
    + destruct Hin as (Hplay & Hdec & Hsrc). rewrite Hplay in Hstep.
      injection Hstep as <- <-. exists (Loading x). cbn. repeat split; auto.
    + destruct Hin as (Hplay & Hdec & Hsrc). rewrite Hplay in Hstep.
      injection Hstep as <- <-. exists (Sounding id x). cbn. repeat split; auto.
  - (* a decode settles *)
    unfold decodeDone in Hstep.
    destruct ph as [|x|id x]; cbn [inPhase] in Hin.
    + destruct Hin as (_ & _ & Hdec & _). rewrite Hdec in Hstep.
      destruct k; discriminate.
    + destruct Hin as (Hplay & Hdec & Hsrc). rewrite Hdec in Hstep.
      destruct k as [|k]; [|destruct k; discriminate].
      cbn [nth_error removeNth] in Hstep. destruct ok.
      * injection Hstep as <- <-. exists (Sounding (created p) x).
        cbn. rewrite String.eqb_refl, Hsrc, app_nil_r. repeat split; auto.
      * destruct (processNextAudio_quiet
                    {| audioQueue := audioQueue p; isPlaying := isPlaying p;
                       currentSource := currentSource p; decoding := [];
                       sources := sources p; created := created p |})
          as (ph' & Hseq & Hph & Hq); auto.
        destruct (processNextAudio _) as [p'' signals'].
        injection Hstep as <- <-. exists ph'. cbn [sequential advance].
        rewrite String.eqb_refl. cbn [fst snd] in *.
        rewrite app_nil_r. repeat split; auto.
    + destruct Hin as (_ & Hdec & _). rewrite Hdec in Hstep.
      destruct k; discriminate.
  - (* a source ends *)
    unfold sourceEnded in Hstep.
    destruct ph as [|x|id' x]; cbn [inPhase] in Hin.
    + destruct Hin as (_ & _ & _ & Hsrc). rewrite Hsrc in Hstep. discriminate.
    + destruct Hin as (_ & _ & Hsrc). rewrite Hsrc in Hstep. discriminate.
    + destruct Hin as (Hplay & Hdec & Hsrc). rewrite Hsrc in Hstep.
      cbn [findSource sourceId dropSource filter] in Hstep.
      destruct (id' =? id)%nat eqn:E; [|discriminate].
      apply Nat.eqb_eq in E. subst id'. cbn [negb segment] in Hstep.
      destruct (processNextAudio_quiet
                  {| audioQueue := audioQueue p; isPlaying := isPlaying p;
                     currentSource := None; decoding := decoding p;
                     sources := []; created := created p |})
        as (ph' & Hseq & Hph & Hq); auto.
      destruct (processNextAudio _) as [p'' signals'].
      injection Hstep as <- <-. exists ph'. cbn [sequential advance].
      rewrite Nat.eqb_refl, String.eqb_refl. cbn [fst snd andb] in *.
      rewrite app_nil_r. repeat split; auto.
Qed.

Lemma run_sequential events : forall p ph p' signals,
  inPhase p ph -> forallb (fun e => negb (isStop e)) events = true ->
  run events p = Some (p', signals) ->
  exists ph',
    sequential ph signals = Some ph' /\ inPhase p' ph' /\
    dequeued signals ++ audioQueue p' = audioQueue p ++ enqueued events.
Proof.
  induction events as [|e events IH]; intros p ph p' signals Hin Hfree Hrun.
  - injection Hrun as <- <-. exists ph. cbn. now rewrite app_nil_r.
  - cbn [run] in Hrun. cbn [forallb] in Hfree.
    apply andb_prop in Hfree. destruct Hfree as [He Hfree].
    apply negb_true_iff in He.
    destruct (step p e) as [[p1 signals1]|] eqn:S1; [|discriminate].
    destruct (run events p1) as [[p2 signals2]|] eqn:R; [|discriminate].
    injection Hrun as <- <-.
    destruct (step_sequential p ph e p1 signals1 Hin He S1)
      as (ph1 & Hseq1 & Hin1 & Hq1).
    destruct (IH p1 ph1 p2 signals2 Hin1 Hfree R) as (ph2 & Hseq2 & Hin2 & Hq2).
    exists ph2. rewrite sequential_app, Hseq1, dequeued_app.
    repeat split; [exact Hseq2 | exact Hin2 |].
    rewrite <- app_assoc, Hq2, app_assoc, Hq1, <- app_assoc.
    f_equal. destruct e; reflexivity.
Qed.

(** At every point of a playback without stop the environment can move
    on: the pending decode can settle, the sounding source can end. *)
Lemma playback_progress p ph :
  inPhase p ph ->
  match ph with
  | Quiet => True
  | Loading _ => forall ok, step p (DecodeDone 0 ok) <> None
  | Sounding id _ => step p (SourceEnded id) <> None
  end.
Proof.
  destruct ph as [|x|id x]; cbn [inPhase step]; [trivial | |].
  - intros (_ & Hdec & _) ok. unfold decodeDone. rewrite Hdec. cbn.
    destruct ok; [discriminate|]. now destruct (processNextAudio _).
  - intros (_ & _ & Hsrc). unfold sourceEnded. rewrite Hsrc. cbn.
    rewrite Nat.eqb_refl. now destruct (processNextAudio _).
Qed.

(** [stopPlayback] while nothing plays: no signal, no change. *)
Lemma stopPlayback_idle p :
  isPlaying p = false -> currentSource p = None -> audioQueue p = [] ->
  stopPlayback p = (p, []).
Proof.
  destruct p as [q playing cur dec src n]. cbn. intros -> -> ->. reflexivity.
Qed.

Lemma findSource_halt id l src :
  findSource id l = Some src ->
  findSource id (halt id l)
  = Some {| sourceId := sourceId src; segment := segment src; halted := true |}.
Proof.
  induction l as [|s l IH]; cbn; [discriminate|].
  destruct (sourceId s =? id)%nat eqn:E; cbn; rewrite E.
  - now intros [= ->].
  - exact IH.
Qed.

(** [stopPlayback] while a segment plays fires the playback-end signal
    and empties the queue; the [ended] event of the stopped source then
    runs [processNextAudio] on the empty queue, which fires the signal
    again. *)
Lemma stop_then_ended p id src :
  isPlaying p = true -> currentSource p = Some id ->
  findSource id (sources p) = Some src ->
  exists p' signals,
    run [StopPlayback; SourceEnded id] p = Some (p', signals) /\
    playbackEnds signals = 2 /\ audioQueue p' = [].
Proof.
  intros Hplay Hcur Hsrc. cbn [run step]. unfold stopPlayback.
  rewrite Hcur, Hplay. unfold sourceEnded. cbn [sources audioQueue].
  rewrite (findSource_halt id (sources p) src Hsrc).
  cbn. eexists. eexists. split; [reflexivity|]. split; reflexivity.
Qed.

(** Three segments that arrive while the first is decoded and played
    are played one after the other, in the order of arrival. *)
Example three_segments_play_in_order :
  option_map snd (run threeSegments initial)
  = Some [PlaybackStart; Dequeued "A"; Started 0 "A"; Ended 0 "A";
          Dequeued "B"; Started 1 "B"; Ended 1 "B";
          Dequeued "C"; Started 2 "C"; Ended 2 "C"; PlaybackEnd].
Proof. reflexivity. Qed.

(** C3 on a playing queue.  Stopping an idle queue changes nothing and
    fires nothing.  While segment A sounds and B waits, [stopPlayback]
    fires the playback-end signal once and leaves the queue empty and
    no source sounding; when the browser then delivers the [ended]
    event of the stopped source, [processNextAudio] fires the signal a
    second time: two playback-end signals for one stop. *)
Theorem stop_while_playing_ends_twice :
  stopPlayback initial = (initial, []) /\
  run [QueueAudio "A"; QueueAudio "B"; DecodeDone 0 true] initial
  = Some (playingSample, [PlaybackStart; Dequeued "A"; Started 0 "A"]) /\
  snd (stopPlayback playingSample) = [Halted 0; PlaybackEnd] /\
  audioQueue (fst (stopPlayback playingSample)) = [] /\
  sounding (fst (stopPlayback playingSample)) = [] /\
  option_map snd (run [StopPlayback; SourceEnded 0] playingSample)
  = Some [Halted 0; PlaybackEnd; Ended 0 "A"; PlaybackEnd] /\
  playbackEnds [Halted 0; PlaybackEnd; Ended 0 "A"; PlaybackEnd] = 2.
Proof. repeat split. Qed.

End PlayerFacts.

(* ================================================================== *)
(** ** Further properties of the chunker                              *)
(* ================================================================== *)

Module ChunkerMore.
Import JS Chunker ChunkerFacts.

Local Open Scope Z_scope.

Lemma trimStart_headed s : headed s -> trimStart s = s.
Proof.
  unfold trimStart. destruct s as [|c s]; [reflexivity|].
  simpl. now intros ->.
Qed.

Lemma trimEnd_fixed s : headed (rev s) -> trimEnd s = s.
Proof.
  intros H. unfold trimEnd. fold (trimStart (rev s)).
  rewrite trimStart_headed by exact H. apply rev_involutive.
Qed.

Lemma rev_trim_headed s : headed (rev (trim s)).
Proof.
  unfold trim, trimEnd. rewrite rev_involutive. apply dropWhile_headed.
Qed.

(** [trim] leaves a trimmed string alone. *)
Lemma trim_idempotent s : trim (trim s) = trim s.
Proof.
  unfold trim at 1. rewrite trimStart_headed by apply trim_headed.
  apply trimEnd_fixed, rev_trim_headed.
Qed.

Section TrimImage.

(** Any property that holds of every [trim] result. *)
Variable P : jsstring -> Prop.
Hypothesis P_trim : forall s, P (trim s).

Lemma splitStep_image remaining m :
  P (fst (splitStep remaining m)) /\ P (snd (splitStep remaining m)).
Proof.
  unfold splitStep. destruct (findBreakPoint remaining m) as [bp|];
    [destruct (negb (bp =? 0) && (bp >? 0))|]; cbn [fst snd]; auto.
Qed.

Lemma splitLongLoop_image m fuel : forall remaining chunks r,
  P remaining -> Forall P chunks ->
  splitLongLoop fuel m remaining chunks = Some r -> Forall P r.
Proof.
  assert (Hdone : forall remaining chunks,
            P remaining -> Forall P chunks ->
            Forall P (pushRemaining remaining chunks)).
  { intros remaining chunks Hr Hc. unfold pushRemaining.
    destruct (len remaining >? 0); [now apply Forall_snoc | exact Hc]. }
  induction fuel as [|fuel IH]; intros remaining chunks r Hr Hc;
    cbn [splitLongLoop]; destruct (len remaining >? m);
    try discriminate; try (intros [= <-]; now apply Hdone).
  destruct (splitStep_image remaining m) as [H1 H2].
  destruct (splitStep remaining m) as [chunk remaining'].
  cbn [fst snd] in H1, H2. apply IH; [exact H2 | now apply Forall_snoc].
Qed.

Lemma groupSentences_image m sentences : forall cur chunks,
  Forall P chunks -> Forall P (groupSentences m sentences cur chunks).
Proof.
  induction sentences as [|sentence rest IH]; intros cur chunks Hc;
    [exact Hc|].
  cbn [groupSentences].
  split_overflow; destruct rest as [|r rest'];
    auto using Forall_snoc.
Qed.

Lemma flatMapLoop_image m chunks : forall r,
  Forall P chunks ->
  flatMapLoop
    (fun chunk =>
       if len chunk >? m then splitLongChunk chunk m else Some [chunk])
    chunks = Some r ->
  Forall P r.
Proof.
  induction chunks as [|chunk chunks IH]; intros r Hc; cbn [flatMapLoop].
  - now intros [= <-].
  - inversion Hc as [|? ? Hchunk Hrest]; subst.
    destruct (len chunk >? m).
    + destruct (splitLongChunk chunk m) as [l|] eqn:L; [|discriminate].
      destruct (flatMapLoop _ chunks) as [r'|]; [|discriminate].
      intros [= <-]. apply Forall_app. split; [|now apply IH].
      unfold splitLongChunk in L.
      now apply (splitLongLoop_image m (length chunk) chunk [] l).
    + destruct (flatMapLoop _ chunks) as [r'|]; [|discriminate].
      intros [= <-]. constructor; [exact Hchunk | now apply IH].
Qed.

Lemma Forall_filter_keep {A : Type} (Q : A -> Prop) f l :
  Forall Q l -> Forall Q (filter f l).
Proof.
  induction 1 as [|x l Hx Hl IH]; cbn; [constructor|].
  destruct (f x); [now constructor | exact IH].
Qed.

(** Every segment the chunker returns is the result of a [trim]. *)
Lemma createOptimalTTSChunks_image text m segments :
  createOptimalTTSChunks text m = Some segments -> Forall P segments.
Proof.
  unfold createOptimalTTSChunks.
  destruct (negb (truthy text) || (len (trim text) =? 0)).
  - intros [= <-]. constructor.
  - destruct (filter (fun s => len s >? 0) (List.map trim (splitSentences text)))
      as [|sentence rest].
    + intros [= <-]. constructor; [apply P_trim | constructor].
    + apply flatMapLoop_image, Forall_filter_keep, groupSentences_image.
      constructor.
Qed.

End TrimImage.

(** X1.  For a positive maximum the chunker returns, and no segment is
    more than one code unit longer than the maximum. *)
Theorem segments_exceed_by_one_at_most text maxChunkLength :
  1 <= maxChunkLength ->
  exists segments,
    createOptimalTTSChunks text maxChunkLength = Some segments /\
    Forall (fun segment => len segment <= maxChunkLength + 1) segments.
Proof.
  intros Hm.
  destruct (createOptimalTTSChunks_spec text maxChunkLength Hm)
    as (segments & Hs & _ & Hb & _).
  exists segments. auto.
Qed.

Lemma segments_exceed_by_one_at_most_witness :
  1 <= defaultMaxChunkLength /\
  exists segments,
    createOptimalTTSChunks restaurantReply defaultMaxChunkLength
    = Some segments /\
    Forall (fun segment => len segment <= defaultMaxChunkLength + 1) segments.
Proof.
  split; [unfold defaultMaxChunkLength; lia|].
  apply (segments_exceed_by_one_at_most restaurantReply defaultMaxChunkLength).
  unfold defaultMaxChunkLength. lia.
Defined.

(** X2.  Whatever the maximum, a segment the chunker returns has no
    white space at either end: trimming it changes nothing. *)
Theorem segments_are_trimmed text maxChunkLength segments :
  createOptimalTTSChunks text maxChunkLength = Some segments ->
  Forall (fun segment => trim segment = segment) segments.
Proof.
  apply (createOptimalTTSChunks_image (fun segment => trim segment = segment)).
  apply trim_idempotent.
Qed.

Lemma segments_are_trimmed_witness :
  createOptimalTTSChunks weatherReply defaultMaxChunkLength
  = Some [lit "Sure, I can help you with that right away.";
          lit "It looks like rain in the afternoon today.";
          lit "Take an umbrella."] /\
  Forall (fun segment => trim segment = segment)
    [lit "Sure, I can help you with that right away.";
     lit "It looks like rain in the afternoon today.";
     lit "Take an umbrella."].
Proof.
  assert (H : createOptimalTTSChunks weatherReply defaultMaxChunkLength
              = Some [lit "Sure, I can help you with that right away.";
                      lit "It looks like rain in the afternoon today.";
                      lit "Take an umbrella."]) by (vm_compute; reflexivity).
  split; [exact H|].
  exact (segments_are_trimmed weatherReply defaultMaxChunkLength _ H).
Defined.

(* ---- texts without white space ---- *)

Lemma solid_headed s : solid s -> headed s.
Proof. destruct 1; [exact I | assumption]. Qed.

Lemma solid_trim s : solid s -> trim s = s.
Proof.
  intros H. unfold trim. rewrite trimStart_headed by now apply solid_headed.
  apply trimEnd_fixed, solid_headed. now apply Forall_rev.
Qed.

Lemma solid_firstn n s : solid s -> solid (firstn n s).
Proof.
  intros H. revert n. induction H as [|c s Hc Hs IH]; intros [|n]; cbn;
    constructor; solve [assumption | apply IH].
Qed.

Lemma solid_skipn n s : solid s -> solid (skipn n s).
Proof.
  intros H. revert n. induction H as [|c s Hc Hs IH]; intros [|n]; cbn;
    solve [constructor; assumption | apply IH].
Qed.

Lemma splitLoop_solid s : forall prev piece,
  solid s -> splitLoop 0 prev piece s = [piece ++ s].
Proof.
  induction s as [|c s IH]; intros prev piece Hs; cbn [splitLoop].
  - now rewrite app_nil_r.
  - inversion Hs as [|? ? Hc Hs']; subst.
    assert (M : matchBoundary prev (c :: s) = None).
    { unfold matchBoundary. destruct prev as [p|]; [|reflexivity].
      destruct (isTerminator p); [|reflexivity]. cbn. now rewrite Hc. }
    rewrite M, IH by exact Hs'. now rewrite <- app_assoc.
Qed.

Lemma startsWith_In pat : forall s c,
  startsWith pat s = true -> In c pat -> In c s.
Proof.
  induction pat as [|p pat IH]; intros s c H Hin; [contradiction|].
  destruct s as [|d s]; [discriminate|]. cbn in H.
  apply andb_prop in H. destruct H as [Hp H]. apply N.eqb_eq in Hp. subst d.
  destruct Hin as [-> | Hin]; [now left | right; now apply (IH s c)].
Qed.

Lemma In_skipn {A : Type} (x : A) n l : In x (skipn n l) -> In x l.
Proof.
  revert l. induction n as [|n IH]; intros [|y l]; cbn; auto.
Qed.

Lemma lastIndexOfFrom_solid s pat k :
  In space pat -> solid s -> lastIndexOfFrom s pat k = -1.
Proof.
  intros Hpat Hs.
  assert (H : forall j, startsWith pat (skipn j s) = false).
  { intros j. destruct (startsWith pat (skipn j s)) eqn:E; [|reflexivity].
    apply (startsWith_In pat _ space E) in Hpat. apply In_skipn in Hpat.
    unfold solid in Hs. rewrite Forall_forall in Hs.
    specialize (Hs space Hpat). discriminate. }
  induction k as [|k IH]; cbn [lastIndexOfFrom]; rewrite H; auto.
Qed.

Lemma findBreakPoint_solid remaining m :
  1 <= m -> solid remaining -> findBreakPoint remaining m = None.
Proof.
  intros Hm Hs. unfold findBreakPoint, breakPoints, lastIndexOf.
  rewrite !lastIndexOfFrom_solid by (exact Hs || (cbn; tauto)).
  cbn [find].
  replace (2 * -1 >? m) with false; [reflexivity|].
  symmetry. rewrite Z.gtb_ltb. apply Z.ltb_ge. lia.
Qed.

Lemma cutEvery_short fuel n s :
  s <> [] -> (length s <= n)%nat -> (length s <= fuel)%nat ->
  cutEvery fuel n s = [s].
Proof.
  intros Hne Hn Hfuel. destruct fuel as [|fuel];
    [destruct s; [now elim Hne | cbn in Hfuel; lia]|].
  cbn [cutEvery]. destruct s as [|c s]; [now elim Hne|].
  rewrite firstn_all2, skipn_all2 by exact Hn. now destruct fuel.
Qed.

(** On a text without white space, and with a positive maximum, the
    loop of [splitLongChunk] cuts every [maxLength] code units. *)
Lemma splitLongLoop_solid m (Hm : 1 <= m) fuel : forall fuel' remaining chunks,
  solid remaining ->
  (length remaining <= fuel)%nat -> (length remaining <= fuel')%nat ->
  splitLongLoop fuel m remaining chunks
  = Some (chunks ++ cutEvery fuel' (Z.to_nat m) remaining).
Proof.
  induction fuel as [|fuel IH]; intros fuel' remaining chunks Hs Hf Hf';
    cbn [splitLongLoop]; destruct (len remaining >? m) eqn:E.
  - exfalso. zbool. unfold len in E. lia.
  - unfold pushRemaining. destruct remaining; [|cbn in Hf; lia].
    cbn. destruct fuel'; cbn; now rewrite app_nil_r.
  - zbool. unfold len in E.
    unfold splitStep. rewrite findBreakPoint_solid by assumption.
    unfold substringFrom. rewrite substring_zero.
    replace (clamp remaining m) with (Z.to_nat m) by (unfold clamp; lia).
    rewrite !solid_trim by auto using solid_firstn, solid_skipn.
    destruct fuel' as [|fuel']; [lia|].
    rewrite (IH fuel') by
      (auto using solid_skipn; rewrite length_skipn; lia).
    cbn [cutEvery]. destruct remaining as [|c r]; [cbn in E; lia|].
    now rewrite <- app_assoc.
  - unfold pushRemaining. zbool. unfold len in E.
    destruct (len remaining >? 0) eqn:E0.
    + apply len_pos_true in E0.
      rewrite cutEvery_short by (auto; lia). reflexivity.
    + apply len_pos_false in E0. subst. destruct fuel'; cbn;
        now rewrite app_nil_r.
Qed.

(** X3.  A reply that has no white space at all is cut into pieces of
    exactly the maximum length, the last piece holding what is left:
    nothing is dropped, added or moved. *)
Theorem unbroken_text_is_cut_every_max text maxChunkLength :
  1 <= maxChunkLength -> solid text -> text <> [] ->
  createOptimalTTSChunks text maxChunkLength
  = Some (hardCuts (Z.to_nat maxChunkLength) text).
Proof.
  intros Hm Hs Hne. unfold createOptimalTTSChunks, splitSentences.
  rewrite splitLoop_solid by exact Hs. cbn [app List.map].
  rewrite solid_trim by exact Hs.
  destruct text as [|c text]; [now elim Hne|].
  replace (negb (truthy (c :: text)) || (len (c :: text) =? 0)) with false.
  2:{ cbn [truthy negb orb]. symmetry. apply Z.eqb_neq.
      unfold len. cbn [length]. lia. }
  cbn [filter].
  replace (len (c :: text) >? 0) with true.
  2:{ symmetry. rewrite Z.gtb_ltb. apply Z.ltb_lt. unfold len.
      cbn [length]. lia. }
  cbn [groupSentences potentialChunk truthy].
  replace (len (@nil char) >? 0) with false by reflexivity.
  rewrite andb_false_r. cbn [app]. rewrite solid_trim by exact Hs.
  cbn [filter].
  replace (len (c :: text) >? 0) with true.
  2:{ symmetry. rewrite Z.gtb_ltb. apply Z.ltb_lt. unfold len.
      cbn [length]. lia. }
  cbn [flatMapLoop]. unfold hardCuts.
  destruct (len (c :: text) >? maxChunkLength) eqn:E.
  - unfold splitLongChunk.
    rewrite (splitLongLoop_solid maxChunkLength Hm (length (c :: text))
               (length (c :: text)) (c :: text) []) by auto.
    cbn [app]. now rewrite app_nil_r.
  - zbool. unfold len in E.
    rewrite cutEvery_short by (auto; try discriminate; lia). reflexivity.
Qed.

Lemma unbroken_text_is_cut_every_max_witness :
  1 <= 4 /\ solid (lit "abcdefghij") /\ lit "abcdefghij" <> [] /\
  createOptimalTTSChunks (lit "abcdefghij") 4
  = Some (hardCuts (Z.to_nat 4) (lit "abcdefghij")).
Proof.
  assert (Hs : solid (lit "abcdefghij")) by (repeat constructor).
  split; [lia|]. split; [exact Hs|]. split; [discriminate|].
  apply (unbroken_text_is_cut_every_max (lit "abcdefghij") 4);
    [lia | exact Hs | discriminate].
Defined.

(* ---- a maximum that is not positive ---- *)

Lemma findBreakPoint_nonpositive remaining m bp :
  m <= 0 -> findBreakPoint remaining m = Some bp -> bp <= 0.
Proof.
  intros Hm H. apply find_some in H. destruct H as [Hin _].
  unfold breakPoints, lastIndexOf in Hin.
  replace (clamp remaining m) with 0%nat in Hin by (unfold clamp; lia).
  cbn [In] in Hin.
  repeat (destruct Hin as [<- | Hin];
          [exact (lastIndexOfFrom_le remaining _ 0)|]).
  contradiction.
Qed.

Lemma splitStep_nonpositive remaining m :
  m <= 0 -> trim remaining = remaining ->
  splitStep remaining m = ([], remaining).
Proof.
  intros Hm Ht.
  assert (Hforced : (trim (substring remaining 0 m),
                     trim (substringFrom remaining m)) = ([], remaining)).
  { unfold substringFrom. rewrite substring_zero.
    replace (clamp remaining m) with 0%nat by (unfold clamp; lia).
    cbn [firstn skipn]. now rewrite Ht. }
  unfold splitStep. destruct (findBreakPoint remaining m) as [bp|] eqn:F;
    [|exact Hforced].
  apply findBreakPoint_nonpositive in F; [|exact Hm].
  replace (bp >? 0) with false; [now rewrite andb_false_r|].
  symmetry. rewrite Z.gtb_ltb. apply Z.ltb_ge. exact F.
Qed.

Lemma splitLongLoop_nonpositive m fuel : forall remaining chunks,
  m <= 0 -> trim remaining = remaining -> remaining <> [] ->
  splitLongLoop fuel m remaining chunks = None.
Proof.
  induction fuel as [|fuel IH]; intros remaining chunks Hm Ht Hne;
    cbn [splitLongLoop];
    (replace (len remaining >? m) with true;
     [|symmetry; rewrite Z.gtb_ltb; apply Z.ltb_lt; unfold len;
       destruct remaining; [now elim Hne | cbn [length]; lia]]).
  - reflexivity.
  - rewrite splitStep_nonpositive by assumption. now apply IH.
Qed.

Lemma flatMapLoop_none f chunks :
  chunks <> [] -> (forall chunk, In chunk chunks -> f chunk = None) ->
  flatMapLoop f chunks = None.
Proof.
  intros Hne H. destruct chunks as [|chunk chunks]; [now elim Hne|].
  cbn [flatMapLoop]. now rewrite (H chunk (or_introl eq_refl)).
Qed.

(** X4.  With a maximum of zero or less the chunker never returns on a
    reply that is not blank: the forced cut of [splitLongChunk] takes
    nothing off [remaining], so its loop does not end however many
    iterations it is given. *)
Theorem nonpositive_maximum_never_returns text maxChunkLength :
  maxChunkLength <= 0 -> trim text <> [] ->
  createOptimalTTSChunks text maxChunkLength = None /\
  forall fuel remaining chunks,
    trim remaining = remaining -> remaining <> [] ->
    splitLongLoop fuel maxChunkLength remaining chunks = None.
Proof.
  intros Hm Hne.
  split; [|intros; now apply splitLongLoop_nonpositive].
  unfold createOptimalTTSChunks.
  replace (negb (truthy text) || (len (trim text) =? 0)) with false.
  2:{ symmetry. apply orb_false_intro.
      - destruct text; [now elim Hne | reflexivity].
      - apply Z.eqb_neq. unfold len. destruct (trim text);
          [now elim Hne | cbn [length]; lia]. }
  pose proof (strip_concat_trimmed (splitSentences text)) as Hs.
  rewrite strip_splitSentences in Hs.
  assert (Hstrip : stripWhiteSpace text <> []).
  { rewrite <- strip_trim. pose proof (trim_headed text) as Hh.
    destruct (trim text) as [|c t]; [now elim Hne|].
    cbn in Hh |- *. rewrite Hh. discriminate. }
  destruct (filter (fun s => len s >? 0) (List.map trim (splitSentences text)))
    as [|sentence rest] eqn:S.
  { cbn in Hs. now rewrite <- Hs in Hstrip. }
  set (chunks := groupSentences maxChunkLength (sentence :: rest) [] []).
  assert (Hall : Forall (fun c => trim c = c) chunks).
  { apply groupSentences_image; [apply trim_idempotent | constructor]. }
  apply flatMapLoop_none.
  - intros E.
    pose proof (strip_concat_filter chunks) as Hf. rewrite E in Hf.
    unfold chunks in Hf. rewrite strip_groupSentences in Hf by discriminate.
    cbn [concat stripWhiteSpace filter app] in Hf.
    fold (stripWhiteSpace (sentence ++ concat rest)) in Hf.
    change (sentence ++ concat rest) with (concat (sentence :: rest)) in Hf.
    rewrite Hs in Hf. now rewrite <- Hf in Hstrip.
  - intros chunk Hin. apply filter_In in Hin. destruct Hin as [Hin Hpos].
    apply len_pos_true in Hpos.
    rewrite Forall_forall in Hall. specialize (Hall chunk Hin).
    replace (len chunk >? maxChunkLength) with true.
    2:{ symmetry. rewrite Z.gtb_ltb. apply Z.ltb_lt. unfold len.
        destruct chunk; [now elim Hpos | cbn [length]; lia]. }
    unfold splitLongChunk. now apply splitLongLoop_nonpositive.
Qed.

Lemma nonpositive_maximum_never_returns_witness :
  0 <= 0 /\ trim (lit "Hi.") <> [] /\
  createOptimalTTSChunks (lit "Hi.") 0 = None /\
  forall fuel remaining chunks,
    trim remaining = remaining -> remaining <> [] ->
    splitLongLoop fuel 0 remaining chunks = None.
Proof.
  split; [lia|]. split; [discriminate|].
  apply (nonpositive_maximum_never_returns (lit "Hi.") 0);
    [lia | discriminate].
Defined.

(* ---- white space collapsed ---- *)

Lemma squeeze_app a : forall gap b,
  squeeze gap (a ++ b) = squeeze gap a ++ squeeze (gapAfter gap a) b.
Proof.
  induction a as [|c a IH]; intros gap b; cbn [app squeeze gapAfter];
    [reflexivity|].
  destruct (isWhiteSpace c); rewrite IH; [reflexivity|].
  now rewrite <- app_assoc.
Qed.

Lemma squeeze_blank w gap :
  Forall (fun c => isWhiteSpace c = true) w -> squeeze gap w = [].
Proof.
  intros H. revert gap. induction H as [|c w Hc Hw IH]; intros gap;
    cbn [squeeze]; [reflexivity|]. rewrite Hc. apply IH.
Qed.

Lemma squeeze_dropWhile s :
  squeeze true (dropWhile isWhiteSpace s) = squeeze true s.
Proof.
  induction s as [|c s IH]; cbn [dropWhile squeeze]; [reflexivity|].
  destruct (isWhiteSpace c) eqn:E; [exact IH|].
  cbn [squeeze]. now rewrite E.
Qed.

Lemma squeeze_trimStart gap s :
  exists gap', squeeze gap s = squeeze gap' (trimStart s).
Proof.
  unfold trimStart. destruct s as [|c s]; [now exists gap|].
  cbn [dropWhile squeeze]. destruct (isWhiteSpace c) eqn:E.
  - exists true. now rewrite squeeze_dropWhile.
  - exists gap. cbn [squeeze]. now rewrite E.
Qed.

Lemma takeWhile_dropWhile {A : Type} (f : A -> bool) l :
  takeWhile f l ++ dropWhile f l = l.
Proof.
  induction l as [|x l IH]; cbn; [reflexivity|].
  destruct (f x); cbn; [now rewrite IH | reflexivity].
Qed.

Lemma takeWhile_all {A : Type} (f : A -> bool) l :
  Forall (fun x => f x = true) (takeWhile f l).
Proof.
  induction l as [|x l IH]; cbn; [constructor|].
  destruct (f x) eqn:E; [now constructor | constructor].
Qed.

Lemma squeeze_trimEnd gap s : squeeze gap (trimEnd s) = squeeze gap s.
Proof.
  unfold trimEnd.
  rewrite <- (rev_involutive s) at 2.
  rewrite <- (takeWhile_dropWhile isWhiteSpace (rev s)) at 2.
  rewrite rev_app_distr, squeeze_app.
  rewrite (squeeze_blank (rev (takeWhile isWhiteSpace (rev s)))).
  - now rewrite app_nil_r.
  - apply Forall_rev, takeWhile_all.
Qed.

Lemma squeeze_trim gap s : exists gap', squeeze gap s = squeeze gap' (trim s).
Proof.
  destruct (squeeze_trimStart gap s) as [gap' H]. exists gap'.
  unfold trim. now rewrite squeeze_trimEnd.
Qed.

Lemma squeeze_trim_true s : squeeze true (trim s) = squeeze true s.
Proof.
  unfold trim, trimStart. now rewrite squeeze_trimEnd, squeeze_dropWhile.
Qed.

Lemma squeeze_headed s :
  headed s -> squeeze true s = match s with [] => [] | _ :: _ => space :: squeeze false s end.
Proof.
  destruct s as [|c s]; [reflexivity|]. cbn [headed squeeze]. now intros ->.
Qed.

(** The collapsed text is the spaced form without its first space. *)
Lemma collapse_tl s : collapse s = tl (squeeze true s).
Proof.
  unfold collapse, trimStart. rewrite <- squeeze_dropWhile.
  rewrite squeeze_headed by apply dropWhile_headed.
  now destruct (dropWhile isWhiteSpace s).
Qed.

(** The scan of [split] drops white space only where it breaks. *)
Lemma squeeze_splitLoop s : forall skip prev piece,
  (skip <= length (takeWhile isWhiteSpace s))%nat ->
  skip = 0%nat \/ piece = [] ->
  flat_map (squeeze true) (splitLoop skip prev piece s)
  = squeeze true (piece ++ s).
Proof.
  induction s as [|c s IH]; intros skip prev piece Hskip Hpiece;
    cbn [splitLoop].
  - cbn. now rewrite !app_nil_r.
  - destruct skip as [|k].
    + assert (Hnext : flat_map (squeeze true)
                        (splitLoop 0 (Some c) (piece ++ [c]) s)
                      = squeeze true (piece ++ c :: s)).
      { rewrite IH by (lia || auto). now rewrite <- app_assoc. }
      destruct (matchBoundary prev (c :: s)) as [[|k]|] eqn:M;
        [exact Hnext | | exact Hnext].
      apply matchBoundary_run in M. cbn [takeWhile] in M.
      destruct (isWhiteSpace c) eqn:E; [|discriminate].
      cbn [length] in M. injection M as M.
      cbn [flat_map]. rewrite IH by (lia || auto).
      cbn [app]. rewrite squeeze_app. cbn [squeeze]. now rewrite E.
    + destruct Hpiece as [Hpiece | ->]; [discriminate|].
      cbn [takeWhile] in Hskip.
      destruct (isWhiteSpace c) eqn:E; cbn [length] in Hskip; [|lia].
      rewrite IH by (lia || auto). cbn [app squeeze]. now rewrite E.
Qed.

Lemma squeeze_sentences l :
  flat_map (squeeze true)
    (filter (fun s => len s >? 0) (List.map trim l))
  = flat_map (squeeze true) l.
Proof.
  induction l as [|x l IH]; [reflexivity|].
  cbn [List.map filter flat_map]. rewrite <- IH, <- (squeeze_trim_true x).
  destruct (len (trim x) >? 0) eqn:E; [reflexivity|].
  apply len_pos_false in E. now rewrite E.
Qed.

Lemma squeeze_filter l :
  flat_map (squeeze true) (filter (fun s => len s >? 0) l)
  = flat_map (squeeze true) l.
Proof.
  induction l as [|x l IH]; [reflexivity|].
  cbn [filter flat_map]. rewrite <- IH.
  destruct (len x >? 0) eqn:E; [reflexivity|].
  apply len_pos_false in E. now subst x.
Qed.

(** Joining a sentence to the chunk in progress puts exactly one run of
    white space between them. *)
Lemma squeeze_potential cur sentence :
  squeeze true (potentialChunk cur sentence)
  = squeeze true cur ++ squeeze true sentence.
Proof.
  unfold potentialChunk. destruct cur as [|c cur]; [reflexivity|].
  cbn [truthy]. rewrite squeeze_app. reflexivity.
Qed.

Lemma flat_map_snoc {A B : Type} (f : A -> list B) l x :
  flat_map f (l ++ [x]) = flat_map f l ++ f x.
Proof. rewrite flat_map_app. cbn. now rewrite app_nil_r. Qed.

Lemma squeeze_groupSentences m sentences : forall cur chunks,
  sentences <> [] ->
  flat_map (squeeze true) (groupSentences m sentences cur chunks)
  = flat_map (squeeze true) chunks ++ squeeze true cur
    ++ flat_map (squeeze true) sentences.
Proof.
  induction sentences as [|sentence rest IH]; intros cur chunks Hne;
    [now elim Hne|].
  cbn [groupSentences flat_map].
  pose proof (squeeze_potential cur sentence) as Hp.
  split_overflow.
  - destruct rest as [|r rest'].
    + rewrite !flat_map_snoc, !squeeze_trim_true. cbn.
      now rewrite !app_nil_r, app_assoc.
    + rewrite IH by discriminate.
      rewrite flat_map_snoc, squeeze_trim_true.
      now rewrite <- !app_assoc.
  - destruct rest as [|r rest'].
    + rewrite flat_map_snoc, squeeze_trim_true, Hp. cbn.
      now rewrite !app_nil_r.
    + rewrite IH by discriminate. rewrite Hp.
      now rewrite <- !app_assoc.
Qed.

Lemma splitStep_shape remaining m :
  exists n,
    splitStep remaining m
    = (trim (firstn n remaining), trim (skipn n remaining)).
Proof.
  unfold splitStep, substringFrom.
  destruct (findBreakPoint remaining m) as [bp|];
    [destruct (negb (bp =? 0) && (bp >? 0))|];
    rewrite substring_zero; eauto.
Qed.

Lemma combine_app_same {A B : Type} (l1 l2 : list A) (r1 r2 : list B) :
  length l1 = length r1 ->
  combine (l1 ++ l2) (r1 ++ r2) = combine l1 r1 ++ combine l2 r2.
Proof.
  revert r1. induction l1 as [|x l1 IH]; intros [|y r1] H;
    try discriminate; [reflexivity|].
  cbn. f_equal. apply IH. now injection H.
Qed.

(** The chunks the loop of [splitLongChunk] adds hold [remaining]:
    collapsed, with a space or nothing before each. *)
Lemma squeeze_splitLongLoop m fuel : forall remaining chunks r,
  splitLongLoop fuel m remaining chunks = Some r ->
  exists added,
    r = chunks ++ added /\
    forall gap, exists gaps,
      length gaps = length added /\
      assemble (combine gaps added) = squeeze gap remaining.
Proof.
  assert (Hdone : forall remaining chunks,
    exists added,
      pushRemaining remaining chunks = chunks ++ added /\
      forall gap, exists gaps,
        length gaps = length added /\
        assemble (combine gaps added) = squeeze gap remaining).
  { intros remaining chunks. unfold pushRemaining.
    destruct (len remaining >? 0) eqn:E.
    - exists [remaining]. split; [reflexivity|]. intros gap.
      exists [gap]. split; [reflexivity|]. cbn. apply app_nil_r.
    - apply len_pos_false in E. subst. exists []. split;
        [now rewrite app_nil_r|]. intros gap. now exists []. }
  induction fuel as [|fuel IH]; intros remaining chunks r;
    cbn [splitLongLoop]; destruct (len remaining >? m);
    try discriminate; try (intros [= <-]; apply Hdone).
  destruct (splitStep_shape remaining m) as [n ->]. intros Hr.
  destruct (IH _ _ _ Hr) as (added & -> & Hadded).
  exists (trim (firstn n remaining) :: added).
  split; [now rewrite <- app_assoc|]. intros gap.
  destruct (squeeze_trim gap (firstn n remaining)) as [gap1 H1].
  destruct (squeeze_trim (gapAfter gap (firstn n remaining))
              (skipn n remaining)) as [gap2 H2].
  destruct (Hadded gap2) as (gaps & Hlen & Hgaps).
  exists (gap1 :: gaps). split; [cbn; now rewrite Hlen|].
  cbn [combine assemble flat_map fst snd]. fold (assemble (combine gaps added)).
  rewrite Hgaps, <- H1, <- H2, <- squeeze_app. now rewrite firstn_skipn.
Qed.

Lemma squeeze_flatMapLoop m chunks : forall r,
  flatMapLoop
    (fun chunk =>
       if len chunk >? m then splitLongChunk chunk m else Some [chunk])
    chunks = Some r ->
  exists gaps,
    length gaps = length r /\
    assemble (combine gaps r) = flat_map (squeeze true) chunks.
Proof.
  induction chunks as [|chunk chunks IH]; intros r; cbn [flatMapLoop].
  - intros [= <-]. now exists [].
  - destruct (len chunk >? m).
    + destruct (splitLongChunk chunk m) as [l|] eqn:L; [|discriminate].
      destruct (flatMapLoop _ chunks) as [r'|]; [|discriminate].
      intros [= <-]. destruct (IH r' eq_refl) as (gaps' & Hlen' & Hgaps').
      unfold splitLongChunk in L.
      destruct (squeeze_splitLongLoop m _ _ _ _ L) as (added & -> & Hadded).
      destruct (Hadded true) as (gaps & Hlen & Hgaps).
      exists (gaps ++ gaps'). cbn [app].
      split; [rewrite !length_app; lia|].
      rewrite combine_app_same by exact Hlen.
      unfold assemble in *. rewrite flat_map_app, Hgaps, Hgaps'. reflexivity.
    + destruct (flatMapLoop _ chunks) as [r'|]; [|discriminate].
      intros [= <-]. destruct (IH r' eq_refl) as (gaps' & Hlen' & Hgaps').
      exists (true :: gaps'). split; [cbn; now rewrite Hlen'|].
      cbn [app combine assemble flat_map fst snd].
      fold (assemble (combine gaps' r')). now rewrite Hgaps'.
Qed.

(** The segments hold the reply: collapsed, with a space or nothing
    before each segment. *)
Lemma squeeze_createOptimalTTSChunks text m segments :
  createOptimalTTSChunks text m = Some segments ->
  exists gaps,
    length gaps = length segments /\
    assemble (combine gaps segments) = squeeze true text.
Proof.
  unfold createOptimalTTSChunks.
  destruct (negb (truthy text) || (len (trim text) =? 0)) eqn:G.
  - intros [= <-]. exists []. split; [reflexivity|].
    rewrite <- squeeze_trim_true. apply orb_prop in G. destruct G as [G | G].
    + destruct text; [reflexivity | discriminate].
    + zbool. unfold len in G.
      destruct (trim text); [reflexivity | cbn [length] in G; lia].
  - pose proof (squeeze_sentences (splitSentences text)) as Hs.
    unfold splitSentences in Hs at 2.
    rewrite squeeze_splitLoop in Hs by (cbn; lia || auto).
    cbn [app] in Hs.
    destruct (filter (fun s => len s >? 0) (List.map trim (splitSentences text)))
      as [|sentence rest] eqn:S.
    + intros [= <-]. exists [true]. split; [reflexivity|].
      cbn. rewrite app_nil_r. apply squeeze_trim_true.
    + intros Hr.
      destruct (squeeze_flatMapLoop m _ _ Hr) as (gaps & Hlen & Hgaps).
      exists gaps. split; [exact Hlen|].
      rewrite Hgaps, squeeze_filter.
      rewrite squeeze_groupSentences by discriminate.
      cbn [flat_map squeeze app] in *. exact Hs.
Qed.

Lemma gapAfter_snoc l c gap : gapAfter gap (l ++ [c]) = isWhiteSpace c.
Proof.
  revert gap. induction l as [|x l IH]; intros gap; cbn; [reflexivity|].
  apply IH.
Qed.

Lemma tight_gapAfter s gap : tight s -> gapAfter gap s = false.
Proof.
  intros (_ & Hr & Hne).
  rewrite <- (rev_involutive s). destruct (rev s) as [|c r] eqn:E.
  - apply (f_equal (@rev char)) in E. rewrite rev_involutive in E.
    now elim Hne.
  - cbn [rev]. cbn in Hr. now rewrite gapAfter_snoc.
Qed.

Lemma squeeze_rejoin pieces :
  Forall (fun piece => tight (snd piece)) pieces ->
  squeeze false (rejoin pieces) = assemble pieces.
Proof.
  induction 1 as [|[sp seg] pieces Hseg Hrest IH]; [reflexivity|].
  cbn [rejoin assemble flat_map fst snd] in *.
  fold (rejoin pieces). fold (assemble pieces).
  cbn [snd] in Hseg.
  assert (Hhead : squeeze false ((if sp then [space] else []) ++ seg)
                  = squeeze sp seg) by now destruct sp.
  assert (Hgap : gapAfter false ((if sp then [space] else []) ++ seg) = false).
  { destruct sp; cbn [app gapAfter]; now apply tight_gapAfter. }
  now rewrite squeeze_app, Hhead, Hgap, IH.
Qed.

Lemma squeeze_true_space s :
  squeeze true s = [] \/ exists rest, squeeze true s = space :: rest.
Proof.
  induction s as [|c s IH]; [now left|]. cbn [squeeze].
  destruct (isWhiteSpace c); [exact IH|]. right.
  now exists (c :: squeeze false s).
Qed.

Lemma collapse_rejoin gaps segments s :
  Forall tight segments -> length gaps = length segments ->
  assemble (combine gaps segments) = squeeze true s ->
  collapse (rejoin (combine gaps segments)) = collapse s.
Proof.
  intros Htight Hlen Heq. rewrite (collapse_tl s), <- Heq.
  destruct segments as [|seg segments]; destruct gaps as [|gap gaps];
    try discriminate; [reflexivity|].
  inversion Htight as [|? ? Hseg Hrest]; subst.
  assert (Hpieces : Forall (fun piece => tight (snd piece))
                      (combine gaps segments)).
  { clear - Hrest. revert gaps.
    induction Hrest as [|x l Hx Hl IH]; intros [|g gaps]; cbn;
      constructor; auto. }
  destruct seg as [|c seg]; [now destruct Hseg as (_ & _ & Hne)|].
  assert (Hc : isWhiteSpace c = false) by now destruct Hseg.
  cbn [combine rejoin assemble flat_map fst snd] in *.
  fold (rejoin (combine gaps segments)).
  fold (assemble (combine gaps segments)) in *.
  assert (Hgap : gap = true).
  { destruct gap; [reflexivity|]. exfalso.
    cbn [squeeze] in Heq. rewrite Hc in Heq. cbn [app] in Heq.
    destruct (squeeze_true_space s) as [E | [rest E]]; rewrite E in Heq;
      [discriminate|].
    injection Heq as Hhead _. subst c. discriminate. }
  subst gap. unfold collapse, trimStart. cbn [app dropWhile].
  replace (isWhiteSpace space) with true by reflexivity.
  cbn [dropWhile]. rewrite Hc.
  change (c :: seg ++ rejoin (combine gaps segments))
    with ((c :: seg) ++ rejoin (combine gaps segments)).
  rewrite squeeze_app, (tight_gapAfter (c :: seg)) by exact Hseg.
  rewrite squeeze_rejoin by exact Hpieces.
  cbn [squeeze]. rewrite Hc. reflexivity.
Qed.

(** C4, as the chunker has it.  For every reply text and every positive
    maximum length (the default 50 among them) the chunker returns and
    no segment is empty.  The segments put together again in order,
    with a single space or nothing between neighbours, are the reply
    text stripped of leading and trailing white space, up to the
    collapsing of each run of white space to one space; plainly
    concatenated, they have the code units of the text other than
    white space, in order.  Which of the two a break takes depends on
    the cut: nothing where a forced cut split a word, a space between
    two sentences.  Neither plain concatenation nor a space at every
    break reproduces the text in general, as the reply of the address
    below shows. *)
Theorem segments_rejoin_to_reply text maxChunkLength :
  1 <= maxChunkLength ->
  exists segments spaces,
    createOptimalTTSChunks text maxChunkLength = Some segments /\
    length spaces = length segments /\
    collapse (rejoin (combine spaces segments)) = collapse (trim text) /\
    stripWhiteSpace (concat segments) = stripWhiteSpace (trim text) /\
    Forall nonEmpty segments.
Proof.
  intros Hm.
  destruct (createOptimalTTSChunks_spec text maxChunkLength Hm)
    as (segments & Hs & Hne & _ & Hstrip).
  destruct (squeeze_createOptimalTTSChunks text maxChunkLength segments Hs)
    as (gaps & Hlen & Hgaps).
  exists segments, gaps.
  split; [exact Hs|]. split; [exact Hlen|].
  split; [|split; [now rewrite strip_trim | exact Hne]].
  apply collapse_rejoin; [| exact Hlen | now rewrite squeeze_trim_true].
  pose proof (createOptimalTTSChunks_image
                (fun s => headed s /\ headed (rev s))
                (fun s => conj (trim_headed s) (rev_trim_headed s))
                text maxChunkLength segments Hs) as Hends.
  rewrite Forall_forall in *. intros seg Hin.
  destruct (Hends seg Hin) as [H1 H2]. repeat split; auto.
  exact (Hne seg Hin).
Qed.

Lemma segments_rejoin_to_reply_witness :
  1 <= defaultMaxChunkLength /\
  exists segments spaces,
    createOptimalTTSChunks addressReply defaultMaxChunkLength
    = Some segments /\
    length spaces = length segments /\
    collapse (rejoin (combine spaces segments))
    = collapse (trim addressReply) /\
    stripWhiteSpace (concat segments)
    = stripWhiteSpace (trim addressReply) /\
    Forall nonEmpty segments.
Proof.
  split; [unfold defaultMaxChunkLength; lia|].
  apply (segments_rejoin_to_reply addressReply defaultMaxChunkLength).
  unfold defaultMaxChunkLength. lia.
Defined.

(** The reply of the address is cut inside the address and broken
    between its sentences: put together with nothing between the
    segments the sentences run into each other, and with a space
    between all of them the address is broken in two. *)
Lemma plain_joins_do_not_reproduce_reply :
  createOptimalTTSChunks addressReply defaultMaxChunkLength
  = Some [lit "Open https://example.com/docs/getting-started/inst";
          lit "allation/index.html for more details.";
          lit "Thanks for asking."] /\
  collapse
    (concat [lit "Open https://example.com/docs/getting-started/inst";
             lit "allation/index.html for more details.";
             lit "Thanks for asking."])
  <> collapse (trim addressReply) /\
  collapse
    (rejoin
       (combine [true; true; true]
          [lit "Open https://example.com/docs/getting-started/inst";
           lit "allation/index.html for more details.";
           lit "Thanks for asking."]))
  <> collapse (trim addressReply).
Proof.
  split; [vm_compute; reflexivity|].
  split; vm_compute; discriminate.
Qed.

(* ---- a reply that fits ---- *)

Lemma span_nonneg l : 0 <= span l.
Proof. induction l as [|x l IH]; cbn [span]; unfold len in *; lia. Qed.

Lemma span_splitLoop s : forall skip prev piece,
  span (splitLoop skip prev piece s) <= len piece + 1 + len s.
Proof.
  induction s as [|c s IH]; intros skip prev piece; cbn [splitLoop].
  - cbn [span]. unfold len. cbn [length]. lia.
  - assert (Hc : len (c :: s) = len s + 1)
      by (unfold len; cbn [length]; lia).
    destruct skip as [|k].
    + destruct (matchBoundary prev (c :: s)) as [[|k]|].
      * specialize (IH 0%nat (Some c) (piece ++ [c])).
        unfold len in *. rewrite length_app in IH. cbn [length] in *. lia.
      * cbn [span]. specialize (IH k (Some c) []).
        unfold len in *. cbn [length] in *. lia.
      * specialize (IH 0%nat (Some c) (piece ++ [c])).
        unfold len in *. rewrite length_app in IH. cbn [length] in *. lia.
    + specialize (IH k (Some c) piece). lia.
Qed.

Lemma span_trimmed l :
  span (filter (fun s => len s >? 0) (List.map trim l)) <= span l.
Proof.
  induction l as [|x l IH]; cbn [List.map filter span]; [lia|].
  pose proof (trim_length x) as Ht.
  destruct (len (trim x) >? 0); cbn [span]; unfold len in *; lia.
Qed.

Lemma len_potentialChunk cur sentence :
  len cur <= len (potentialChunk cur sentence) /\
  len (potentialChunk cur sentence) <= len cur + 1 + len sentence.
Proof.
  unfold potentialChunk, len. destruct cur as [|c cur]; cbn [truthy].
  - cbn [length]. lia.
  - rewrite !length_app. cbn [length]. lia.
Qed.

Lemma len_joined sentences : forall cur,
  len cur <= len (fold_left potentialChunk sentences cur) /\
  len (fold_left potentialChunk sentences cur) <= len cur + span sentences.
Proof.
  induction sentences as [|sentence rest IH]; intros cur;
    cbn [fold_left span]; [lia|].
  destruct (IH (potentialChunk cur sentence)) as [IH1 IH2].
  destruct (len_potentialChunk cur sentence) as [H1 H2]. lia.
Qed.

(** Sentences that fit together go into one chunk. *)
Lemma groupSentences_fits m sentences : forall cur,
  sentences <> [] ->
  len (fold_left potentialChunk sentences cur) <= m ->
  groupSentences m sentences cur []
  = [trim (fold_left potentialChunk sentences cur)].
Proof.
  induction sentences as [|sentence rest IH]; intros cur Hne Hfit;
    [now elim Hne|].
  cbn [groupSentences fold_left] in *.
  destruct (len_joined rest (potentialChunk cur sentence)) as [Hmono _].
  replace (len (potentialChunk cur sentence) >? m) with false.
  2:{ symmetry. rewrite Z.gtb_ltb. apply Z.ltb_ge. lia. }
  cbn [andb]. destruct rest as [|r rest']; [reflexivity|].
  now apply IH.
Qed.

(** A reply that fits is not split. *)
Lemma fitting_reply_unsplit text maxChunkLength :
  trim text <> [] -> len text <= maxChunkLength ->
  exists segment,
    createOptimalTTSChunks text maxChunkLength = Some [segment] /\
    stripWhiteSpace segment = stripWhiteSpace text.
Proof.
  intros Hne Hfit. unfold createOptimalTTSChunks.
  replace (negb (truthy text) || (len (trim text) =? 0)) with false.
  2:{ symmetry. apply orb_false_intro.
      - destruct text; [now elim Hne | reflexivity].
      - apply Z.eqb_neq. unfold len. destruct (trim text);
          [now elim Hne | cbn [length]; lia]. }
  pose proof (strip_concat_trimmed (splitSentences text)) as Hs.
  rewrite strip_splitSentences in Hs.
  pose proof (span_trimmed (splitSentences text)) as Hspan.
  pose proof (span_splitLoop text 0 None []) as Hsplit.
  fold (splitSentences text) in Hsplit.
  assert (Hstrip : stripWhiteSpace text <> []).
  { rewrite <- strip_trim. pose proof (trim_headed text) as Hh.
    destruct (trim text) as [|c t]; [now elim Hne|].
    cbn in Hh |- *. rewrite Hh. discriminate. }
  destruct (filter (fun s => len s >? 0) (List.map trim (splitSentences text)))
    as [|sentence rest] eqn:S.
  { cbn in Hs. now rewrite <- Hs in Hstrip. }
  set (joined := fold_left potentialChunk (sentence :: rest) []).
  assert (Hlen : len joined <= maxChunkLength).
  { unfold joined. cbn [fold_left potentialChunk truthy].
    destruct (len_joined rest sentence) as [_ H].
    cbn [span] in Hspan. change (len (@nil char)) with 0 in Hsplit. lia. }
  rewrite (groupSentences_fits maxChunkLength (sentence :: rest) [])
    by (discriminate || exact Hlen).
  fold joined.
  pose proof (strip_groupSentences maxChunkLength (sentence :: rest) [] []
                ltac:(discriminate)) as Hg.
  rewrite (groupSentences_fits maxChunkLength (sentence :: rest) [])
    in Hg by (discriminate || exact Hlen).
  fold joined in Hg. cbn [concat app stripWhiteSpace filter] in Hg.
  rewrite app_nil_r in Hg.
  fold (stripWhiteSpace (trim joined)) in Hg.
  fold (stripWhiteSpace (sentence ++ concat rest)) in Hg.
  change (sentence ++ concat rest) with (concat (sentence :: rest)) in Hg.
  rewrite Hs in Hg.
  exists (trim joined). split; [|exact Hg].
  cbn [filter].
  replace (len (trim joined) >? 0) with true.
  2:{ symmetry. rewrite Z.gtb_ltb. apply Z.ltb_lt. unfold len.
      destruct (trim joined); [now rewrite <- Hg in Hstrip | cbn [length]; lia]. }
  cbn [flatMapLoop].
  replace (len (trim joined) >? maxChunkLength) with false; [reflexivity|].
  symmetry. rewrite Z.gtb_ltb. apply Z.ltb_ge.
  pose proof (trim_length joined). unfold len in *. lia.
Qed.

(** X5.  A reply that is not blank and is no longer than the maximum is
    never split: the chunker returns exactly one segment.  The segment
    is the reply up to white space: it holds the reply's code units
    other than white space, in order, and with each run of white space
    collapsed to one space, and leading white space dropped, segment
    and reply are the same string, so that sentences are still apart
    and no two words have run together. *)
Theorem fitting_reply_is_one_segment text maxChunkLength :
  trim text <> [] -> len text <= maxChunkLength ->
  exists segment,
    createOptimalTTSChunks text maxChunkLength = Some [segment] /\
    stripWhiteSpace segment = stripWhiteSpace text /\
    collapse segment = collapse text.
Proof.
  intros Hne Hfit.
  destruct (fitting_reply_unsplit text maxChunkLength Hne Hfit)
    as (segment & Hs & Hstrip).
  exists segment. split; [exact Hs|]. split; [exact Hstrip|].
  destruct (squeeze_createOptimalTTSChunks text maxChunkLength [segment] Hs)
    as (gaps & Hlen & Hgaps).
  destruct gaps as [|gap [|gap' gaps]]; try discriminate.
  cbn [combine assemble flat_map fst snd] in Hgaps.
  rewrite app_nil_r in Hgaps.
  pose proof (createOptimalTTSChunks_image headed trim_headed
                text maxChunkLength [segment] Hs) as Hhead.
  apply Forall_inv in Hhead.
  rewrite !collapse_tl. f_equal. rewrite <- Hgaps.
  destruct gap; [reflexivity|]. exfalso.
  destruct segment as [|c segment].
  - cbn in Hgaps. rewrite <- squeeze_trim_true in Hgaps.
    pose proof (trim_headed text) as Hh.
    destruct (trim text) as [|d t]; [now elim Hne|].
    cbn [headed] in Hh. cbn [squeeze] in Hgaps. rewrite Hh in Hgaps.
    discriminate.
  - cbn [headed] in Hhead. cbn [squeeze] in Hgaps. rewrite Hhead in Hgaps.
    cbn [app] in Hgaps.
    destruct (squeeze_true_space text) as [E | [rest E]]; rewrite E in Hgaps;
      [discriminate|].
    injection Hgaps as Hc _. subst c. discriminate.
Qed.

Lemma fitting_reply_is_one_segment_witness :
  trim (lit " Yes.  I can do that. ") <> [] /\
  len (lit " Yes.  I can do that. ") <= defaultMaxChunkLength /\
  exists segment,
    createOptimalTTSChunks (lit " Yes.  I can do that. ")
      defaultMaxChunkLength = Some [segment] /\
    stripWhiteSpace segment = stripWhiteSpace (lit " Yes.  I can do that. ") /\
    collapse segment = collapse (lit " Yes.  I can do that. ").
Proof.
  assert (H : len (lit " Yes.  I can do that. ") <= defaultMaxChunkLength)
    by (vm_compute; discriminate).
  split; [discriminate|]. split; [exact H|].
  apply (fitting_reply_is_one_segment (lit " Yes.  I can do that. ")
           defaultMaxChunkLength); [discriminate | exact H].
Defined.

End ChunkerMore.

(* ================================================================== *)
(** ** Further properties of the session                              *)
(* ================================================================== *)

Module SessionMore.
Import JS Session SessionFacts.

Section More.

Variable fromBase64 : string -> list byte.
Variable toBase64 : list byte -> string.

Local Abbreviation onMessage := (Session.onMessage fromBase64).
Local Abbreviation resume := (Session.resume toBase64).
Local Abbreviation step := (Session.step fromBase64 toBase64).
Local Abbreviation run := (Session.run fromBase64 toBase64).

(** X6.  In an open session every chunk message with a non-empty chunk
    field appends that field to the buffer, in arrival order, whether
    or not a turn is in progress; a chunk message whose field is
    missing or empty adds nothing.  No chunk message makes the handler
    call or send anything. *)
Theorem chunk_fields_accumulate u id fields : forall s,
  closed s = false -> currentSessionId (conn s) = Some id ->
  truthyString (Some id) = true ->
  run (List.map (fun field => Message u (chunkMessage field)) fields) s
  = Some ({| conn := {| audioChunks := audioChunks (conn s) ++ keptChunks fields;
                        inProgress := inProgress (conn s);
                        currentSessionId := Some id |};
             turn := turn s; closed := false |}, []).
Proof.
  induction fields as [|field fields IH];
    intros [[chunks busy sid] t cl] Hopen Hid Htruthy; cbn in Hopen, Hid;
    subst cl sid.
  - cbn. now rewrite app_nil_r.
  - cbn [List.map Session.run]. unfold Session.step at 1.
    cbn [closed conn turn]. unfold Session.onMessage.
    cbn [type chunkMessage chunk currentSessionId audioChunks inProgress].
    rewrite Htruthy. cbn [negb].
    destruct field as [[|a b64]|]; destruct t;
      rewrite IH by (reflexivity || assumption);
      cbn [conn turn audioChunks inProgress keptChunks flat_map app];
      rewrite <- ?app_assoc; reflexivity.
Qed.

Lemma connected_guarded : guarded connected.
Proof. intros _ H. now elim H. Qed.

(** X7.  On a connection that started fresh, while the socket is open
    and a turn is in flight, a start or end message changes nothing and
    starts nothing: there is never a second turn for the connection. *)
Theorem one_turn_at_a_time events s effects uuid data :
  run events connected = Some (s, effects) ->
  closed s = false -> turn s <> None ->
  type data <> user_audio_chunk ->
  step s (Message uuid data) = Some (s, []).
Proof.
  intros Hrun Hopen Hturn Htype.
  pose proof (run_guarded fromBase64 toBase64 events connected s effects
                connected_guarded Hrun Hopen Hturn) as Hbusy.
  destruct s as [c t cl]. cbn in *. subst cl.
  unfold Session.onMessage. rewrite Hbusy.
  destruct (type data); [| now elim Htype |].
  - destruct t; [reflexivity | now elim Hturn].
  - destruct (currentSessionId c) as [[|a id]|];
      (destruct t; [reflexivity | now elim Hturn]).
Qed.

Lemma resume_conn t r c c' effects t' :
  resume t r c = Some (c', effects, t') -> c' = c \/ c' = idle.
Proof.
  intros R. unfold Session.resume in R.
  destruct r, t; try discriminate; try (injection R as <- <- <-; auto).
  - destruct (Chunker.createOptimalTTSChunks finalResponse
                Chunker.defaultMaxChunkLength) as [chunks|]; [|discriminate].
    unfold speechLoop in R.
    destruct (nth_error chunks 0); injection R as <- <- <-; auto.
  - unfold speechLoop in R.
    destruct (nth_error chunks (S i)); injection R as <- <- <-; auto.
Qed.

Lemma step_closed s e s' effects :
  closed s = true -> conn s = idle -> step s e = Some (s', effects) ->
  closed s' = true /\ conn s' = idle /\ isSettle e = true.
Proof.
  intros Hcl Hidle Hstep. destruct e as [uuid data| |r]; cbn in Hstep;
    rewrite ?Hcl in Hstep; try discriminate.
  destruct (turn s) as [t|]; [|discriminate].
  destruct (resume t r (conn s)) as [[[c eff] t']|] eqn:R; [|discriminate].
  injection Hstep as <- <-. cbn [closed conn isSettle].
  split; [reflexivity|]. split; [|reflexivity].
  destruct (resume_conn t r (conn s) c eff t' R) as [-> | ->]; auto.
Qed.

(** X8.  Once the socket has closed the session variables stay reset:
    whatever the turn still in flight does afterwards, the chunk buffer
    stays empty, the session id null and the in-progress flag cleared;
    and only settlements of that turn can follow, no message is
    handled. *)
Theorem closed_session_stays_idle events : forall s s' effects,
  closed s = false ->
  run (Close :: events) s = Some (s', effects) ->
  closed s' = true /\ conn s' = idle /\ forallb isSettle events = true.
Proof.
  intros s s' effects Hopen Hrun. cbn [Session.run] in Hrun.
  unfold Session.step at 1 in Hrun. rewrite Hopen in Hrun.
  cbn [app] in Hrun.
  set (s0 := {| conn := idle; turn := turn s; closed := true |}) in Hrun.
  assert (H0 : closed s0 = true /\ conn s0 = idle) by (split; reflexivity).
  clearbody s0. clear Hopen.
  destruct (run events s0) as [[s1 effects1]|] eqn:R; [|discriminate].
  injection Hrun as <- <-.
  revert s0 s1 effects1 H0 R.
  induction events as [|e events IH]; intros s0 s1 effects1 [Hcl Hidle] R;
    cbn [Session.run forallb] in *.
  - injection R as <- <-. auto.
  - destruct (step s0 e) as [[s2 effects2]|] eqn:S2; [|discriminate].
    destruct (run events s2) as [[s3 effects3]|] eqn:R3; [|discriminate].
    injection R as <- <-.
    destruct (step_closed s0 e s2 effects2 Hcl Hidle S2) as (Hcl2 & Hidle2 & He).
    rewrite He. cbn [andb]. exact (IH s2 s3 effects3 (conj Hcl2 Hidle2) R3).
Qed.

Lemma run_streamed deltas : forall finalResponse c cl,
  run (streamed deltas)
      {| conn := c; turn := Some (AwaitChatStream finalResponse); closed := cl |}
  = Some ({| conn := c;
             turn := Some (AwaitChatStream (finalResponse ++ replyOf deltas));
             closed := cl |}, []).
Proof.
  induction deltas as [|content deltas IH]; intros finalResponse c cl.
  - cbn. now rewrite app_nil_r.
  - cbn [streamed List.map Session.run]. unfold Session.step at 1.
    cbn [turn conn closed Session.resume]. fold (streamed deltas).
    rewrite IH. cbn [app replyOf List.map concat].
    fold (replyOf deltas). now rewrite <- app_assoc.
Qed.

(** X9.  A turn whose calls all succeed makes them in this order: the
    transcription of the saved file, the generation request for the
    transcript, then the synthesis loop over the segments of the reply.
    The reply is the concatenation of the streamed contents, a missing
    content counting as empty; it always yields segments, none of them
    empty, so the synthesis service is never asked for an empty text;
    and the turn ends with the session idle. *)
Theorem turn_stages_in_order fileId transcript deltas s :
  turn s = Some (AwaitWriteFile fileId) ->
  exists segments,
    Chunker.createOptimalTTSChunks (replyOf deltas)
      Chunker.defaultMaxChunkLength = Some segments /\
    Forall Chunker.nonEmpty segments /\
    forall audios,
      length audios = length segments ->
      run ([Settle Resolved; Settle (ResolvedText transcript); Settle Resolved]
           ++ streamed deltas ++ Settle ResolvedEnd :: synthesized audios) s
      = Some ({| conn := idle; turn := None; closed := closed s |},
              [transcribe fileId; chat_create transcript]
              ++ synthesisTrace toBase64 segments audios).
Proof.
  intros Ht.
  destruct (ChunkerFacts.createOptimalTTSChunks_spec (replyOf deltas)
              Chunker.defaultMaxChunkLength)
    as (segments & Hseg & Hne & _ & _);
    [unfold Chunker.defaultMaxChunkLength; lia|].
  exists segments. split; [exact Hseg|]. split; [exact Hne|].
  intros audios Hlen.
  destruct s as [c t cl]. cbn in Ht. subst t.
  cbn [app Session.run]. unfold Session.step at 1.
  cbn [turn conn closed Session.resume].
  unfold Session.step at 1. cbn [turn conn closed Session.resume].
  unfold Session.step at 1. cbn [turn conn closed Session.resume].
  rewrite (run_app fromBase64 toBase64), run_streamed. cbn [app].
  cbn [Session.run]. unfold Session.step at 1.
  cbn [turn conn closed Session.resume]. rewrite Hseg.
  destruct (speechLoop_run fromBase64 toBase64 segments cl c audios 0 Hlen)
    as (effects & Hrun & ->).
  destruct (speechLoop segments 0 c) as [[c1 effects1] t1].
  destruct (run (synthesized audios)
              {| conn := c1; turn := t1; closed := cl |})
    as [[s' effects2]|]; [|contradiction].
  destruct Hrun as [-> <-]. reflexivity.
Qed.

Lemma isLast_false chunks i :
  (S i < length chunks)%nat -> isLast chunks i = false.
Proof. intros H. rewrite isLast_nat. apply Nat.eqb_neq. lia. Qed.

Lemma sent_app effects1 effects2 :
  sent (effects1 ++ effects2) = sent effects1 ++ sent effects2.
Proof.
  induction effects1 as [|e effects1 IH]; [reflexivity|].
  destruct e; cbn; now rewrite IH.
Qed.

(** The synthesis loop, stopped before the final segment. *)
Lemma speechLoop_partial chunks c cl : forall audios i,
  (i + length audios < length chunks)%nat ->
  exists effects,
    run (synthesized audios)
        {| conn := c; turn := Some (AwaitSpeech chunks i); closed := cl |}
    = Some ({| conn := c;
               turn := Some (AwaitSpeech chunks (i + length audios));
               closed := cl |}, effects) /\
    sent effects
    = List.map (fun audio => ai_audio (toBase64 audio) false) audios.
Proof.
  induction audios as [|audio audios IH]; intros i Hlt.
  - exists []. cbn. now rewrite Nat.add_0_r.
  - cbn [length] in Hlt.
    destruct (IH (S i)) as (effects & Hrun & Hsent); [lia|].
    destruct (nth_error chunks (S i)) as [chunk|] eqn:E.
    2:{ apply nth_error_None in E. lia. }
    exists (arrayBuffer :: ws_send (ai_audio (toBase64 audio) false)
            :: speech_create chunk :: effects).
    split.
    + cbn [synthesized flat_map app Session.run].
      unfold Session.step at 1. cbn [turn conn closed Session.resume].
      unfold Session.step at 1. cbn [turn conn closed Session.resume].
      unfold speechLoop. rewrite E. fold (synthesized audios).
      rewrite Hrun, isLast_false by lia. cbn [length].
      now rewrite Nat.add_succ_r.
    + cbn [sent List.map]. now rewrite Hsent.
Qed.

(** X10.  When the synthesis request of a segment fails, the client has
    been sent the audio of the segments before it, in order and none
    flagged [done], and is then sent the error message, which is the
    last message of the turn; the session is left idle. *)
Theorem failed_synthesis_sends_no_done finalResponse chunks audios message s :
  turn s = Some (AwaitChatStream finalResponse) ->
  Chunker.createOptimalTTSChunks finalResponse Chunker.defaultMaxChunkLength
  = Some chunks ->
  (length audios < length chunks)%nat ->
  exists effects,
    run (Settle ResolvedEnd
         :: synthesized audios ++ [Settle (Rejected message)]) s
    = Some ({| conn := idle; turn := None; closed := closed s |}, effects) /\
    sent effects
    = List.map (fun audio => ai_audio (toBase64 audio) false) audios
      ++ [error message].
Proof.
  intros Ht Hchunks Hlt. destruct s as [c t cl]. cbn in Ht. subst t.
  destruct (speechLoop_partial chunks c cl audios 0 Hlt)
    as (effects & Hrun & Hsent).
  destruct (nth_error chunks 0) as [chunk|] eqn:E.
  2:{ apply nth_error_None in E. lia. }
  exists (speech_create chunk :: effects ++ [ws_send (error message)]).
  split.
  - cbn [Session.run]. unfold Session.step at 1.
    cbn [turn conn closed Session.resume]. rewrite Hchunks.
    unfold speechLoop. rewrite E.
    rewrite (run_app fromBase64 toBase64), Hrun. cbn [Session.run].
    unfold Session.step. cbn [turn conn closed Session.resume].
    reflexivity.
  - cbn [sent]. rewrite sent_app, Hsent. reflexivity.
Qed.

Lemma onMessage_sends_nothing uuid data c :
  sent (snd (fst (onMessage uuid data c))) = [].
Proof.
  unfold Session.onMessage.
  repeat match goal with
         | |- context [match ?x with _ => _ end] => destruct x
         end; reflexivity.
Qed.

(** X11.  Handling messages and the close of the socket never sends
    anything to the client: a start, a chunk, an end that is ignored or
    discarded, and a close are all silent.  Only the settlements of a
    turn produce messages. *)
Theorem messages_alone_send_nothing events : forall s s' effects,
  forallb (fun e => negb (isSettle e)) events = true ->
  run events s = Some (s', effects) -> sent effects = [].
Proof.
  induction events as [|e events IH]; intros s s' effects Hall Hrun;
    cbn [Session.run forallb] in *.
  - now injection Hrun as <- <-.
  - apply andb_prop in Hall. destruct Hall as [He Hall].
    destruct (step s e) as [[s1 effects1]|] eqn:S1; [|discriminate].
    destruct (run events s1) as [[s2 effects2]|] eqn:R; [|discriminate].
    injection Hrun as <- <-. rewrite sent_app, (IH s1 s2 effects2 Hall R).
    rewrite app_nil_r. destruct e as [uuid data| |r]; [| |discriminate];
      cbn in S1.
    + destruct (closed s); [discriminate|].
      pose proof (onMessage_sends_nothing uuid data (conn s)) as Hs.
      destruct (onMessage uuid data (conn s)) as [[c eff] t].
      cbn in Hs. destruct t, (turn s); try discriminate;
        now injection S1 as <- <-.
    + destruct (closed s); [discriminate|]. now injection S1 as <- <-.
Qed.

End More.

Lemma chunk_fields_accumulate_witness :
  Session.run Base64.decode Base64.encode
    (List.map (fun field => Message ""%string (chunkMessage field))
       [Some "aGVsbG8="%string; None; Some ""%string; Some "IHdvcmxk"%string])
    {| conn := processingSample; turn := Some AwaitTranscribe;
       closed := false |}
  = Some ({| conn := {| audioChunks :=
                          audioChunks processingSample
                          ++ keptChunks
                               [Some "aGVsbG8="%string; None; Some ""%string;
                                Some "IHdvcmxk"%string];
                        inProgress := inProgress processingSample;
                        currentSessionId := Some "3f2a"%string |};
             turn := Some AwaitTranscribe; closed := false |}, []).
Proof.
  apply (chunk_fields_accumulate Base64.decode Base64.encode ""%string
           "3f2a"%string
           [Some "aGVsbG8="%string; None; Some ""%string; Some "IHdvcmxk"%string]
           {| conn := processingSample; turn := Some AwaitTranscribe;
              closed := false |}); reflexivity.
Defined.

Lemma one_turn_at_a_time_witness :
  Session.step Base64.decode Base64.encode
    {| conn := {| audioChunks := [largeChunk]; inProgress := true;
                  currentSessionId := Some "9b7e"%string |};
       turn := Some (AwaitWriteFile "9b7e"%string); closed := false |}
    (Message "5c1d"%string finish)
  = Some ({| conn := {| audioChunks := [largeChunk]; inProgress := true;
                        currentSessionId := Some "9b7e"%string |};
             turn := Some (AwaitWriteFile "9b7e"%string); closed := false |},
          []).
Proof.
  apply (one_turn_at_a_time Base64.decode Base64.encode
           [Message "9b7e"%string start;
            Message ""%string (chunkOf largeChunk);
            Message ""%string finish]
           _ [writeFile "9b7e"%string (Base64.decode largeChunk)]);
    [vm_compute; reflexivity | reflexivity | discriminate | discriminate].
Defined.

Local Open Scope string_scope.
Local Open Scope list_scope.

Lemma closed_session_stays_idle_witness :
  closed transcribingSample = false /\
  exists s' effects,
    Session.run Base64.decode Base64.encode
      (Close :: [Settle (ResolvedText (lit "hello")); Settle Resolved;
                 Settle (Rejected "Connection error.")])
      transcribingSample = Some (s', effects) /\
    (closed s' = true /\ conn s' = idle /\
     forallb isSettle
       [Settle (ResolvedText (lit "hello")); Settle Resolved;
        Settle (Rejected "Connection error.")] = true).
Proof.
  split; [reflexivity|]. eexists. eexists.
  split; [vm_compute; reflexivity|].
  eapply (closed_session_stays_idle Base64.decode Base64.encode
           [Settle (ResolvedText (lit "hello")); Settle Resolved;
            Settle (Rejected "Connection error.")] transcribingSample);
    [reflexivity | vm_compute; reflexivity].
Defined.

Lemma turn_stages_in_order_witness :
  exists segments,
    Chunker.createOptimalTTSChunks
      (replyOf [Some (lit "Take an "); None; Some (lit "umbrella.")])
      Chunker.defaultMaxChunkLength = Some segments /\
    Forall Chunker.nonEmpty segments /\
    forall audios,
      length audios = length segments ->
      Session.run Base64.decode Base64.encode
        ([Settle Resolved; Settle (ResolvedText (lit "will it rain"));
          Settle Resolved]
         ++ streamed [Some (lit "Take an "); None; Some (lit "umbrella.")]
         ++ Settle ResolvedEnd :: synthesized audios)
        {| conn := processingSample; turn := Some (AwaitWriteFile "3f2a");
           closed := false |}
      = Some ({| conn := idle; turn := None; closed := false |},
              [transcribe "3f2a"; chat_create (lit "will it rain")]
              ++ synthesisTrace Base64.encode segments audios).
Proof.
  apply (turn_stages_in_order Base64.decode Base64.encode "3f2a"
           (lit "will it rain")
           [Some (lit "Take an "); None; Some (lit "umbrella.")]
           {| conn := processingSample; turn := Some (AwaitWriteFile "3f2a");
              closed := false |}).
  reflexivity.
Defined.

Lemma failed_synthesis_sends_no_done_witness :
  exists effects,
    Session.run Base64.decode Base64.encode
      (Settle ResolvedEnd
       :: synthesized [beep] ++ [Settle (Rejected "Rate limit reached.")])
      (streamingSample Chunker.weatherReply)
    = Some ({| conn := idle; turn := None; closed := false |}, effects) /\
    sent effects
    = List.map (fun audio => ai_audio (Base64.encode audio) false) [beep]
      ++ [error "Rate limit reached."].
Proof.
  apply (failed_synthesis_sends_no_done Base64.decode Base64.encode
           Chunker.weatherReply weatherSegments [beep] "Rate limit reached."
           (streamingSample Chunker.weatherReply));
    [reflexivity | vm_compute; reflexivity | cbn; lia].
Defined.

Lemma messages_alone_send_nothing_witness :
  exists s' effects,
    Session.run Base64.decode Base64.encode
      [Message "" (chunkOf "aGVsbG8="); Message "" finish;
       Message "9b7e" start; Message "" (chunkOf "aGVsbG8=");
       Message "" finish; Close] connected = Some (s', effects) /\
    sent effects = [].
Proof.
  eexists. eexists. split; [vm_compute; reflexivity|].
  eapply (messages_alone_send_nothing Base64.decode Base64.encode
           [Message "" (chunkOf "aGVsbG8="); Message "" finish;
            Message "9b7e" start; Message "" (chunkOf "aGVsbG8=");
            Message "" finish; Close] connected);
    [reflexivity | vm_compute; reflexivity].
Defined.

End SessionMore.

(* ================================================================== *)
(** ** Further properties of the playback queue                       *)
(* ================================================================== *)

Module PlayerMore.
Import Player PlayerFacts.

Local Open Scope string_scope.
Local Open Scope list_scope.

(** X12.  [stopPlayback] is idempotent: a second stop right after a stop
    changes nothing and fires nothing, and one stop fires the
    playback-end signal at most once. *)
Theorem stopPlayback_idempotent p :
  stopPlayback (fst (stopPlayback p)) = (fst (stopPlayback p), []) /\
  playbackEnds (snd (stopPlayback p)) <= 1.
Proof.
  destruct p as [q playing cur dec src n]. unfold stopPlayback.
  cbn [currentSource isPlaying audioQueue decoding sources created].
  destruct cur as [id|], playing; cbn; auto.
Qed.

Lemma player_run_app events1 events2 p :
  run (events1 ++ events2) p
  = match run events1 p with
    | Some (p1, signals1) =>
        match run events2 p1 with
        | Some (p2, signals2) => Some (p2, signals1 ++ signals2)
        | None => None
        end
    | None => None
    end.
Proof.
  revert p. induction events1 as [|e events1 IH]; intros p; cbn [run app].
  - destruct (run events2 p) as [[p2 signals2]|]; reflexivity.
  - destruct (step p e) as [[p' signals]|]; [|reflexivity].
    rewrite IH. destruct (run events1 p') as [[p1 signals1]|]; [|reflexivity].
    destruct (run events2 p1) as [[p2 signals2]|]; [|reflexivity].
    now rewrite app_assoc.
Qed.

Lemma alternating_app playing signals1 signals2 :
  alternating playing (signals1 ++ signals2)
  = match alternating playing signals1 with
    | Some playing1 => alternating playing1 signals2
    | None => None
    end.
Proof.
  revert playing. induction signals1 as [|s signals1 IH]; intros playing;
    cbn; [reflexivity|].
  destruct (alternate playing s); [apply IH | reflexivity].
Qed.

Lemma processNextAudio_alternating p :
  isPlaying p = true ->
  alternating true (snd (processNextAudio p))
  = Some (isPlaying (fst (processNextAudio p))).
Proof.
  intros Hplay. unfold processNextAudio.
  destruct (audioQueue p); cbn; [reflexivity | now rewrite Hplay].
Qed.

Lemma step_alternating p ph e p' signals :
  inPhase p ph -> isStop e = false -> step p e = Some (p', signals) ->
  alternating (isPlaying p) signals = Some (isPlaying p').
Proof.
  intros Hin Hstop Hstep. destruct e as [base64| |k ok|id];
    [| discriminate | |]; cbn [step] in Hstep.
  - unfold queueAudio in Hstep. cbn [isPlaying] in Hstep.
    destruct (isPlaying p) eqn:Hplay; cbn [negb] in Hstep.
    + injection Hstep as <- <-. cbn. rewrite ?Hplay. reflexivity.
    + pose proof (processNextAudio_alternating
                    {| audioQueue := audioQueue p ++ [base64];
                       isPlaying := true; currentSource := currentSource p;
                       decoding := decoding p; sources := sources p;
                       created := created p |} eq_refl) as H.
      destruct (processNextAudio _) as [p'' signals'].
      injection Hstep as <- <-. cbn [alternating alternate]. exact H.
  - unfold decodeDone in Hstep.
    destruct (nth_error (decoding p) k) as [x|] eqn:E; [|discriminate].
    assert (Hplay : isPlaying p = true).
    { destruct ph; cbn [inPhase] in Hin.
      - destruct Hin as (_ & _ & Hdec & _). rewrite Hdec in E.
        destruct k; discriminate.
      - tauto.
      - tauto. }
    destruct ok.
    + injection Hstep as <- <-. cbn. rewrite ?Hplay. reflexivity.
    + pose proof (processNextAudio_alternating
                    {| audioQueue := audioQueue p; isPlaying := isPlaying p;
                       currentSource := currentSource p;
                       decoding := removeNth k (decoding p);
                       sources := sources p; created := created p |} Hplay)
        as H.
      destruct (processNextAudio _) as [p'' signals'].
      injection Hstep as <- <-. cbn [alternating alternate].
      rewrite Hplay. cbn [fst snd] in H. rewrite <- H. reflexivity.
  - unfold sourceEnded in Hstep.
    destruct (findSource id (sources p)) as [src|] eqn:E; [|discriminate].
    assert (Hplay : isPlaying p = true).
    { destruct ph; cbn [inPhase] in Hin.
      - destruct Hin as (_ & _ & _ & Hsrc). rewrite Hsrc in E. discriminate.
      - destruct Hin as (_ & _ & Hsrc). rewrite Hsrc in E. discriminate.
      - tauto. }
    pose proof (processNextAudio_alternating
                  {| audioQueue := audioQueue p; isPlaying := isPlaying p;
                     currentSource := None; decoding := decoding p;
                     sources := dropSource id (sources p);
                     created := created p |} Hplay) as H.
    destruct (processNextAudio _) as [p'' signals'].
    injection Hstep as <- <-. cbn [alternating alternate].
    rewrite Hplay. cbn [fst snd] in H. rewrite <- H. reflexivity.
Qed.

(** X13.  In every run without stop the two callbacks take turns,
    beginning with [onPlaybackStart]: it fires once each time playback
    leaves idle, [onPlaybackEnd] fires once each time the queue drains,
    and [isPlaying] is set exactly between the two. *)
Theorem playback_signals_alternate events : forall p signals,
  forallb (fun e => negb (isStop e)) events = true ->
  run events initial = Some (p, signals) ->
  alternating false signals = Some (isPlaying p).
Proof.
  assert (H : forall evs p0 ph p signals,
            inPhase p0 ph ->
            forallb (fun e => negb (isStop e)) evs = true ->
            run evs p0 = Some (p, signals) ->
            alternating (isPlaying p0) signals = Some (isPlaying p)).
  { induction evs as [|e evs IH]; intros p0 ph p signals Hin Hfree Hrun;
      cbn [run forallb] in *.
    - now injection Hrun as <- <-.
    - apply andb_prop in Hfree. destruct Hfree as [He Hfree].
      apply negb_true_iff in He.
      destruct (step p0 e) as [[p1 signals1]|] eqn:S1; [|discriminate].
      destruct (run evs p1) as [[p2 signals2]|] eqn:R; [|discriminate].
      injection Hrun as <- <-.
      destruct (step_sequential p0 ph e p1 signals1 Hin He S1)
        as (ph1 & _ & Hin1 & _).
      rewrite alternating_app, (step_alternating p0 ph e p1 signals1 Hin He S1).
      exact (IH p1 ph1 p2 signals2 Hin1 Hfree R). }
  intros p signals Hfree Hrun.
  apply (H events initial Quiet p signals); [cbn; auto | exact Hfree | exact Hrun].
Qed.

Lemma playback_signals_alternate_witness :
  exists p signals,
    run threeSegments initial = Some (p, signals) /\
    alternating false signals = Some (isPlaying p).
Proof.
  eexists. eexists. split; [vm_compute; reflexivity|].
  apply (playback_signals_alternate threeSegments);
    [reflexivity | vm_compute; reflexivity].
Defined.

Lemma playbackStarts_app signals1 signals2 :
  playbackStarts (signals1 ++ signals2)
  = playbackStarts signals1 + playbackStarts signals2.
Proof.
  induction signals1 as [|s signals1 IH]; [reflexivity|].
  destruct s; cbn; now rewrite IH.
Qed.

Lemma playbackEnds_app signals1 signals2 :
  playbackEnds (signals1 ++ signals2)
  = playbackEnds signals1 + playbackEnds signals2.
Proof.
  induction signals1 as [|s signals1 IH]; [reflexivity|].
  destruct s; cbn; now rewrite IH.
Qed.

(** Segments that arrive while playback is on only join the queue. *)
Lemma run_enqueue segments : forall q cur dec src n,
  run (List.map QueueAudio segments)
      {| audioQueue := q; isPlaying := true; currentSource := cur;
         decoding := dec; sources := src; created := n |}
  = Some ({| audioQueue := q ++ segments; isPlaying := true;
             currentSource := cur; decoding := dec; sources := src;
             created := n |}, []).
Proof.
  induction segments as [|x segments IH]; intros q cur dec src n.
  - cbn. now rewrite app_nil_r.
  - cbn [List.map run step]. unfold queueAudio. cbn [isPlaying negb].
    cbn [audioQueue currentSource decoding sources created].
    rewrite IH. cbn [app]. now rewrite <- app_assoc.
Qed.

(** From a queue that decodes [x] with [q] waiting, the browser's
    completions play or skip every segment and end the playback. *)
Lemma run_completions oks : forall q x n,
  length oks = S (length q) ->
  exists signals,
    run (completions n oks)
        {| audioQueue := q; isPlaying := true; currentSource := None;
           decoding := [x]; sources := []; created := n |}
    = Some ({| audioQueue := []; isPlaying := false; currentSource := None;
               decoding := []; sources := [];
               created := n + length (filter (fun ok => ok) oks) |},
            signals) /\
    dequeued signals = q /\ playbackStarts signals = 0 /\
    playbackEnds signals = 1.
Proof.
  induction oks as [|ok oks IH]; intros q x n Hlen; [discriminate|].
  cbn [length] in Hlen. injection Hlen as Hlen.
  destruct q as [|y q].
  - destruct oks; [|discriminate]. destruct ok.
    + exists [Started n x; Ended n x; PlaybackEnd]. split; [|repeat split].
      cbn. unfold sourceEnded. cbn. rewrite Nat.eqb_refl. cbn.
      now rewrite Nat.add_1_r.
    + exists [Skipped x; PlaybackEnd]. split; [|repeat split].
      cbn. now rewrite Nat.add_0_r.
  - destruct ok.
    + destruct (IH q y (S n) Hlen) as (signals & Hrun & Hd & Hs & He).
      exists (Started n x :: Ended n x :: Dequeued y :: signals).
      split; [|cbn; rewrite Hd; auto].
      cbn [completions run step]. unfold decodeDone.
      cbn [decoding nth_error removeNth audioQueue isPlaying currentSource
             sources created app].
      unfold sourceEnded.
      cbn [sources findSource sourceId dropSource filter negb segment
             audioQueue isPlaying decoding created].
      rewrite Nat.eqb_refl.
      cbn [negb processNextAudio audioQueue isPlaying currentSource decoding
             sources created app].
      rewrite Hrun. cbn [filter length]. now rewrite Nat.add_succ_r.
    + destruct (IH q y n Hlen) as (signals & Hrun & Hd & Hs & He).
      exists (Skipped x :: Dequeued y :: signals).
      split; [|cbn; rewrite Hd; auto].
      cbn [completions run step]. unfold decodeDone.
      cbn [decoding nth_error removeNth audioQueue isPlaying currentSource
             sources created app processNextAudio].
      rewrite Hrun. reflexivity.
Qed.

(** X14.  Left alone, the queue plays out: when the segments have been
    enqueued and the browser settles each decode, with success or not,
    and lets each started source play to its end, every segment is
    taken off the queue, in the order of arrival, a failed decode only
    skipping its segment; the playback-start and playback-end signals
    each fire exactly once, and the hook is idle again with an empty
    queue. *)
Theorem queue_plays_out segments oks :
  segments <> [] -> length oks = length segments ->
  exists signals,
    run (List.map QueueAudio segments ++ completions 0 oks) initial
    = Some ({| audioQueue := []; isPlaying := false; currentSource := None;
               decoding := []; sources := [];
               created := length (filter (fun ok => ok) oks) |}, signals) /\
    dequeued signals = segments /\
    playbackStarts signals = 1 /\ playbackEnds signals = 1.
Proof.
  intros Hne Hlen. destruct segments as [|x segments]; [now elim Hne|].
  cbn [length] in Hlen.
  destruct (run_completions oks segments x 0 Hlen)
    as (signals & Hrun & Hd & Hs & He).
  exists ([PlaybackStart; Dequeued x] ++ signals).
  split; [|cbn; rewrite Hd, Hs, He; auto].
  rewrite player_run_app. cbn [List.map run step]. unfold queueAudio at 1.
  cbn [initial isPlaying negb audioQueue currentSource decoding sources
         created app processNextAudio].
  rewrite run_enqueue. cbn [app]. rewrite Hrun. reflexivity.
Qed.

Lemma queue_plays_out_witness :
  ["A"; "B"; "C"] <> [] /\
  length [true; false; true] = length ["A"; "B"; "C"] /\
  exists signals,
    run (List.map QueueAudio ["A"; "B"; "C"]
         ++ completions 0 [true; false; true]) initial
    = Some ({| audioQueue := []; isPlaying := false; currentSource := None;
               decoding := []; sources := [];
               created := length (filter (fun ok => ok) [true; false; true]) |},
            signals) /\
    dequeued signals = ["A"; "B"; "C"] /\
    playbackStarts signals = 1 /\ playbackEnds signals = 1.
Proof.
  split; [discriminate|]. split; [reflexivity|].
  apply (queue_plays_out ["A"; "B"; "C"] [true; false; true]);
    [discriminate | reflexivity].
Defined.

(** X15.  [stopPlayback] does not cancel a segment that is still being
    decoded: it fires the playback-end signal and clears the queue, but
    when the decode completes the segment is started all the same, and
    sounds while [isPlaying] is false. *)
Theorem stop_does_not_cancel_decoding p x :
  isPlaying p = true -> currentSource p = None ->
  decoding p = [x] -> sources p = [] ->
  exists p',
    run [StopPlayback; DecodeDone 0 true] p
    = Some (p', [PlaybackEnd; Started (created p) x]) /\
    isPlaying p' = false /\ audioQueue p' = [] /\
    sounding p'
    = [{| sourceId := created p; segment := x; halted := false |}].
Proof.
  destruct p as [q playing cur dec src n]. cbn. intros -> -> -> ->.
  eexists. split; [reflexivity|]. repeat split.
Qed.

Lemma stop_does_not_cancel_decoding_witness :
  exists p',
    run [StopPlayback; DecodeDone 0 true]
      {| audioQueue := ["B"]; isPlaying := true; currentSource := None;
         decoding := ["A"]; sources := []; created := 0 |}
    = Some (p', [PlaybackEnd; Started 0 "A"]) /\
    isPlaying p' = false /\ audioQueue p' = [] /\
    sounding p' = [{| sourceId := 0; segment := "A"; halted := false |}].
Proof.
  apply (stop_does_not_cancel_decoding
           {| audioQueue := ["B"]; isPlaying := true; currentSource := None;
              decoding := ["A"]; sources := []; created := 0 |} "A");
    reflexivity.
Defined.

(* ---- every segment is brought to its end ---- *)














(** Three segments, the later ones arriving while the first is decoded
    and played: each is played to its end before the next is taken,
    also when the decode of the second fails. *)
Example arrivals_play_out :
  option_map snd
    (run (arrivals ++ [SourceEnded 0; DecodeDone 0 true; SourceEnded 1;
                       DecodeDone 0 true; SourceEnded 2]) initial)
  = Some [PlaybackStart; Dequeued "A"; Started 0 "A"; Ended 0 "A";
          Dequeued "B"; Started 1 "B"; Ended 1 "B";
          Dequeued "C"; Started 2 "C"; Ended 2 "C"; PlaybackEnd] /\
  option_map snd
    (run (arrivals ++ [SourceEnded 0; DecodeDone 0 false;
                       DecodeDone 0 true; SourceEnded 1]) initial)
  = Some [PlaybackStart; Dequeued "A"; Started 0 "A"; Ended 0 "A";
          Dequeued "B"; Skipped "B";
          Dequeued "C"; Started 1 "C"; Ended 1 "C"; PlaybackEnd].
Proof. split; reflexivity. Qed.

End PlayerMore.

(* ================================================================== *)
(** ** From the server's messages to the client's playback            *)
(* ================================================================== *)

Module ClientFacts.
Import Session Player PlayerFacts Client.

Local Open Scope list_scope.

Lemma enqueued_received toBase64 segments : forall audios,
  length audios = length segments ->
  enqueued (received (sent (synthesisTrace toBase64 segments audios)))
  = List.map toBase64 audios.
Proof.
  induction segments as [|segment segments IH]; intros [|audio audios] Hlen;
    try discriminate; [reflexivity|].
  cbn [length] in Hlen. injection Hlen as Hlen.
  cbn [synthesisTrace sent received flat_map onmessage app enqueued List.map].
  f_equal. exact (IH audios Hlen).
Qed.

(** X16.  The audio of a turn reaches the loudspeaker in segment order:
    when the client enqueues what the messages of a successful turn
    carry, in the order the server sent them, then in every run without
    stop, however the arrivals interleave with decoding and playing,
    playback is sequential and the segments taken off the queue,
    followed by those still waiting, are the synthesized audio of the
    segments in segment order. *)
Theorem turn_audio_plays_in_segment_order
  toBase64 segments audios events p signals :
  length audios = length segments ->
  forallb (fun e => negb (isStop e)) events = true ->
  enqueued events
  = enqueued (received (sent (synthesisTrace toBase64 segments audios))) ->
  Player.run events initial = Some (p, signals) ->
  (exists ph, sequential Quiet signals = Some ph) /\
  dequeued signals ++ audioQueue p = List.map toBase64 audios.
Proof.
  intros Hlen Hfree Henq Hrun.
  destruct (run_sequential events initial Quiet p signals) as (ph & H1 & _ & H2);
    [cbn; auto | exact Hfree | exact Hrun |].
  split; [now exists ph|].
  rewrite H2, Henq. cbn [initial audioQueue app].
  now apply enqueued_received.
Qed.

Lemma turn_audio_plays_in_segment_order_witness :
  exists p signals,
    Player.run
      (received (sent (synthesisTrace Base64.encode weatherSegments
                         [beep; beep; beep]))
       ++ completions 0 [true; true; true]) initial = Some (p, signals) /\
    ((exists ph, sequential Quiet signals = Some ph) /\
     dequeued signals ++ audioQueue p
     = List.map Base64.encode [beep; beep; beep]).
Proof.
  eexists. eexists. split; [vm_compute; reflexivity|].
  apply (turn_audio_plays_in_segment_order Base64.encode weatherSegments
           [beep; beep; beep]
           (received (sent (synthesisTrace Base64.encode weatherSegments
                              [beep; beep; beep]))
            ++ completions 0 [true; true; true]));
    [reflexivity | reflexivity | reflexivity | vm_compute; reflexivity].
Defined.

End ClientFacts.
